(** * Live voice session: codec adapter, playback scheduler, session controller

    A shallow embedding of [src/components/LiveVoiceSession.tsx].

    Number model.  Every JavaScript number that the component handles
    (device time, buffer durations, PCM samples) is a finite double; it is
    embedded as the rational it denotes ([Q]).  Comparison, [Math.max],
    the product of a sample in [-1,1] with 32768 and the quotient of a
    16-bit integer by 32768 are exact on doubles, so they are the same
    operations on [Q]; the sum [start + duration] is rounded by the machine
    and exact here.  NaN and the infinities are outside the model.

    Typed arrays are lists: [Uint8Array] and [ArrayBuffer] are [list byte],
    and an indexed store is stdpp's list insert, which, like a typed-array
    store, does nothing out of range. *)

From Stdlib Require Import ZArith NArith QArith Qround Qabs Lia.
From Stdlib Require Import Strings.String Strings.Ascii Strings.Byte.
From stdpp Require Import base list.

Local Open Scope Z_scope.

(** ** Exceptions *)

(** The exceptions of the host that the component can meet. *)
Inductive JsError :=
| RangeError
| TypeError
| InvalidCharacterError
| NotSupportedError
| NotAllowedError
| ConnectionError.

(** A computation that returns or throws. *)
Inductive result (A : Type) :=
| Ok (a : A)
| Throw (e : JsError).
Arguments Ok {A} a.
Arguments Throw {A} e.

#[global] Instance result_ret : MRet result := fun A a => Ok a.
#[global] Instance result_bind : MBind result := fun A B f m =>
  match m with
  | Ok a => f a
  | Throw e => Throw e
  end.

(** ** Strings and bytes *)

(** A JavaScript string is a sequence of UTF-16 code units. *)
Abbreviation jsstring := (list N).

(** The code units of a literal. *)
Definition js (s : string) : jsstring :=
  N_of_ascii <$> list_ascii_of_string s.

(** [String.fromCharCode(n)]: the one-unit string of [n] modulo 2^16. *)
Definition fromCharCode (n : N) : jsstring := [(n mod 65536)%N].

(** The conversion applied by a store into a [Uint8Array]: modulo 2^8. *)
Definition ToUint8 (n : N) : byte :=
  default x00 (Byte.of_N (n mod 256)%N).

(** The low byte of an integer, two's complement. *)
Definition byte_of_Z (z : Z) : byte := ToUint8 (Z.to_N (z mod 256)).

(** [s.charCodeAt(i)] followed by a [Uint8Array] store; out of range the
    code is NaN, which a store turns into 0. *)
Definition charCodeAt_u8 (s : jsstring) (i : nat) : byte :=
  match s !! i with
  | Some c => ToUint8 c
  | None => x00
  end.

(** ** The runtime's base64 functions

    [btoa] and [atob] belong to the browser.  They are written here after the
    WHATWG "forgiving-base64" encode and decode algorithms. *)
Module Base64.

Definition alphabet : jsstring :=
  js "ABCDEFGHIJKLMNOPQRSTUVWXYZabcdefghijklmnopqrstuvwxyz0123456789+/".

Definition pad : N := 61%N.

(** The character of a 6-bit value. *)
Definition char_of (v : N) : N := default pad (alphabet !! N.to_nat v).

Fixpoint index_of (c : N) (l : list N) : option N :=
  match l with
  | [] => None
  | x :: l' => if (x =? c)%N then Some 0%N else N.succ <$> index_of c l'
  end.

(** The 6-bit value of a character, if it is in the alphabet. *)
Definition value_of (c : N) : option N := index_of c alphabet.

Local Open Scope N_scope.

(** The 6-bit groups of a byte sequence: three bytes give four groups; a
    final group of one or two bytes is filled up with zero bits. *)
Fixpoint sextets (bs : list N) : list N :=
  match bs with
  | a :: b :: c :: rest =>
      a / 4
      :: (a mod 4) * 16 + b / 16
      :: (b mod 16) * 4 + c / 64
      :: c mod 64
      :: sextets rest
  | [a; b] => [a / 4; (a mod 4) * 16 + b / 16; (b mod 16) * 4]
  | [a] => [a / 4; (a mod 4) * 16]
  | [] => []
  end.

(** The [=] signs that fill the last group of four characters. *)
Definition padding (bs : list N) : jsstring :=
  match (length bs mod 3)%nat with
  | 1%nat => [pad; pad]
  | 2%nat => [pad]
  | _ => []
  end.

Definition encode_bytes (bs : list N) : jsstring :=
  (char_of <$> sextets bs) ++ padding bs.

(** [btoa(s)]: throws when a code unit is above 0xFF. *)
Definition btoa (s : jsstring) : result jsstring :=
  if forallb (fun c => c <=? 255) s then Ok (encode_bytes s)
  else Throw InvalidCharacterError.

Definition is_ascii_whitespace (c : N) : bool :=
  (c =? 9) || (c =? 10) || (c =? 12) || (c =? 13) || (c =? 32).

(** Remove a final [=], if there is one. *)
Definition drop_last_pad (s : jsstring) : option jsstring :=
  match rev s with
  | c :: r => if c =? pad then Some (rev r) else None
  | [] => None
  end.

(** When the length is a multiple of 4, remove one or two final [=]. *)
Definition strip_padding (s : jsstring) : jsstring :=
  if (length s mod 4 =? 0)%nat then
    match drop_last_pad s with
    | Some s1 => default s1 (drop_last_pad s1)
    | None => s
    end
  else s.

(** The decoder's state: the bytes put out, the bit buffer, its size. *)
Definition dstate : Type := jsstring * N * N.

(** Append six bits; at 24 bits put out three bytes and empty the buffer. *)
Definition feed (st : dstate) (v : N) : dstate :=
  let '(out, buf, nbits) := st in
  let buf := buf * 64 + v in
  let nbits := nbits + 6 in
  if nbits =? 24
  then (out ++ [buf / 65536; (buf / 256) mod 256; buf mod 256], 0, 0)
  else (out, buf, nbits).

(** With 12 bits left, drop four and put out one byte; with 18 bits left,
    drop two and put out two bytes. *)
Definition flush (st : dstate) : jsstring :=
  let '(out, buf, nbits) := st in
  if nbits =? 12 then out ++ [buf / 16]
  else if nbits =? 18 then out ++ [(buf / 4) / 256; (buf / 4) mod 256]
  else out.

Definition decode_values (vs : list N) : jsstring :=
  flush (fold_left feed vs ([], 0, 0)).

(** [atob(s)]: throws on a length of 1 modulo 4 and on a character
    outside the alphabet. *)
Definition atob (data : jsstring) : result jsstring :=
  let data := filter (fun c => is_ascii_whitespace c = false) data in
  let data := strip_padding data in
  if (length data mod 4 =? 1)%nat then Throw InvalidCharacterError
  else match mapM value_of data with
       | Some vs => Ok (decode_values vs)
       | None => Throw InvalidCharacterError
       end.

End Base64.

(** ** Audio codec adapter *)

(** [decode(base64)], lines 6-13. *)
Definition decode (base64 : jsstring) : result (list byte) :=
  binaryString ← Base64.atob base64;
  let bytes := replicate (length binaryString) x00 in
  Ok (fold_left (fun bytes i => <[i := charCodeAt_u8 binaryString i]> bytes)
        (seq 0 (length binaryString)) bytes).

(** [bytes[i]] read as a character code; out of range it is [undefined],
    which [String.fromCharCode] turns into code 0. *)
Definition byte_code (bytes : list byte) (i : nat) : N :=
  match bytes !! i with
  | Some b => Byte.to_N b
  | None => 0%N
  end.

(** [encode(bytes)], lines 15-21. *)
Definition encode (bytes : list byte) : result jsstring :=
  let binary :=
    fold_left (fun binary i => binary ++ fromCharCode (byte_code bytes i))
      (seq 0 (length bytes)) [] in
  Base64.btoa binary.

(** *** Inbound PCM *)

(** A signed 16-bit integer from its two bytes, low byte first. *)
Definition int16_of_le (lo hi : byte) : Z :=
  let u := Z.of_N (Byte.to_N lo) + 256 * Z.of_N (Byte.to_N hi) in
  if u <? 32768 then u else u - 65536.

Fixpoint int16_elements (buffer : list byte) : list Z :=
  match buffer with
  | lo :: hi :: rest => int16_of_le lo hi :: int16_elements rest
  | _ => []
  end.

(** [new Int16Array(buffer)]: a view of the whole buffer, refused with a
    RangeError when its byte length is not a multiple of 2. *)
Definition Int16Array_of_buffer (buffer : list byte) : result (list Z) :=
  if (length buffer mod 2 =? 0)%nat then Ok (int16_elements buffer)
  else Throw RangeError.

(** The truncation of a number toward zero. *)
Definition Qtrunc (x : Q) : Z := Z.quot (Qnum x) (Zpos (Qden x)).

(** An [AudioBuffer]: its channels hold [frames] samples each. *)
Record AudioBuffer := {
  numberOfChannels : nat;
  frames : nat;
  sampleRate : Q;
  channels : list (list Q)
}.

(** [buffer.duration], in seconds. *)
Definition duration (b : AudioBuffer) : Q :=
  (inject_Z (Z.of_nat (frames b)) / sampleRate b)%Q.

(** [ctx.createBuffer(numberOfChannels, length, sampleRate)].  The length
    is converted to an unsigned 32-bit integer (truncated, modulo 2^32).  A
    zero channel count, a zero length or a rate that is not positive is
    refused with NotSupportedError; the upper limits of an implementation
    are not modelled.  The new buffer is silent. *)
Definition createBuffer (numChannels : nat) (len : Q) (rate : Q)
  : result AudioBuffer :=
  let n := Z.to_nat (Qtrunc len mod 2 ^ 32) in
  if (numChannels =? 0)%nat || (n =? 0)%nat || Qle_bool rate 0
  then Throw NotSupportedError
  else Ok {| numberOfChannels := numChannels;
             frames := n;
             sampleRate := rate;
             channels := replicate numChannels (replicate n 0%Q) |}.

(** The values of [i] visited by [for (let i = 0; i < bound; i++)]. *)
Definition indices_below (bound : Q) : list nat :=
  seq 0 (Z.to_nat (Qceiling bound)).

(** [channelData[i] = dataInt16[j] / 32768.0].  Where [dataInt16[j]] is
    [undefined] the quotient is NaN; [i] is then past the end of
    [channelData] (lemma [undefined_sample_out_of_range]), where the store
    is ignored, so the array is left as it is. *)
Definition store_sample (dataInt16 : list Z) (j : nat)
    (channelData : list Q) (i : nat) : list Q :=
  match dataInt16 !! j with
  | Some v => <[i := (inject_Z v / 32768)%Q]> channelData
  | None => channelData
  end.

(** The two loops of [decodeAudioData], lines 27-32; [getChannelData]
    is a view of the buffer, so the stores land in it. *)
Definition fill_channels (dataInt16 : list Z) (numChannels : nat)
    (frameCount : Q) (chans : list (list Q)) : list (list Q) :=
  fold_left
    (fun chans channel =>
       match chans !! channel with
       | Some channelData =>
           <[channel :=
               fold_left
                 (fun cd i =>
                    store_sample dataInt16 (i * numChannels + channel) cd i)
                 (indices_below frameCount) channelData]> chans
       | None => chans
       end)
    (seq 0 numChannels) chans.

(** [decodeAudioData(data, ctx, sampleRate, numChannels)], lines 23-34. *)
Definition decodeAudioData (data : list byte) (rate : Q) (numChannels : nat)
  : result AudioBuffer :=
  dataInt16 ← Int16Array_of_buffer data;
  let frameCount :=
    (inject_Z (Z.of_nat (length dataInt16))
     / inject_Z (Z.of_nat numChannels))%Q in
  buffer ← createBuffer numChannels frameCount rate;
  Ok {| numberOfChannels := numberOfChannels buffer;
        frames := frames buffer;
        sampleRate := sampleRate buffer;
        channels :=
          fill_channels dataInt16 numChannels frameCount (channels buffer) |}.

(** *** Outbound PCM *)

(** The conversion applied by a store into an [Int16Array]: truncate
    toward zero, reduce modulo 2^16, read as two's complement. *)
Definition ToInt16 (x : Q) : Z :=
  let m := Qtrunc x mod 65536 in
  if m <? 32768 then m else m - 65536.

(** [int16[i] = x] on the buffer under the array: two bytes, low first. *)
Definition Int16Array_store (buffer : list byte) (i : nat) (x : Q)
  : list byte :=
  let v := ToInt16 x in
  <[(2 * i + 1)%nat := byte_of_Z (v / 256)]>
    (<[(2 * i)%nat := byte_of_Z v]> buffer).

(** [inputData[i]], a sample of the capture frame. *)
Definition sample_at (inputData : list Q) (i : nat) : Q :=
  default 0%Q (inputData !! i).

(** The bytes built by [onaudioprocess], lines 66-70:
    [new Uint8Array(int16.buffer)] after the loop. *)
Definition encodeOutbound (inputData : list Q) : list byte :=
  let int16 := replicate (2 * length inputData) x00 in
  fold_left
    (fun buffer i => Int16Array_store buffer i (sample_at inputData i * 32768)%Q)
    (seq 0 (length inputData)) int16.

(** The two bytes of a 16-bit integer in two's complement, low byte
    first. *)
Definition int16_le (v : Z) : list byte := [byte_of_Z v; byte_of_Z (v / 256)].

(** The encoder in the words of the specification: every sample is scaled
    by 32768, truncated to an integer and packed as 16 bits, low byte
    first. *)
Definition encodeOutbound_spec (samples : list Q) : list byte :=
  concat ((fun s => int16_le (Qtrunc (s * 32768))) <$> samples).

(** The chunk handed to the connection. *)
Record Blob := { data : jsstring; mimeType : string }.

(** ** The component *)

(** [Math.max(a, b)]. *)
Definition Math_max (a b : Q) : Q :=
  match a ?= b with
  | Lt => b
  | _ => a
  end.

Inductive MicOutcome := MicGranted | MicDenied.
Inductive ConnOutcome := Connected | ConnectFailed.

(** The calls that reach the devices, the connection and the console.
    [AudioContextClose] and [TrackStop] are the operations that give an
    audio context and the microphone back. *)
Inductive Call :=
| NewAudioContext (ctx : nat) (rate : Q)
| GetUserMedia (outcome : MicOutcome)
| LiveConnect (outcome : ConnOutcome)
| CaptureConnect
| SendRealtimeInput (media : Blob)
| SourceStart (source : nat) (when : Q) (length : Q)
| SourceStop (source : nat)
| SessionClose (session : nat)
| AudioContextClose (ctx : nat)
| TrackStop
| ConsoleError.

(** The state of [LiveVoiceSession]: its two state hooks, its four refs,
    the calls made so far (oldest first) and the next object identity. *)
Record Component := {
  isActive : bool;
  status : string;
  sessionRef : option nat;
  audioContextRef : option nat;
  nextStartTimeRef : Q;
  sourcesRef : list nat;
  calls : list Call;
  nextObject : nat
}.

Definition initial : Component :=
  {| isActive := false; status := "Idle"; sessionRef := None;
     audioContextRef := None; nextStartTimeRef := 0; sourcesRef := [];
     calls := []; nextObject := 0 |}.

Definition setIsActive (b : bool) (c : Component) : Component :=
  {| isActive := b; status := status c; sessionRef := sessionRef c;
     audioContextRef := audioContextRef c;
     nextStartTimeRef := nextStartTimeRef c; sourcesRef := sourcesRef c;
     calls := calls c; nextObject := nextObject c |}.

Definition setStatus (s : string) (c : Component) : Component :=
  {| isActive := isActive c; status := s; sessionRef := sessionRef c;
     audioContextRef := audioContextRef c;
     nextStartTimeRef := nextStartTimeRef c; sourcesRef := sourcesRef c;
     calls := calls c; nextObject := nextObject c |}.

Definition setSessionRef (s : option nat) (c : Component) : Component :=
  {| isActive := isActive c; status := status c; sessionRef := s;
     audioContextRef := audioContextRef c;
     nextStartTimeRef := nextStartTimeRef c; sourcesRef := sourcesRef c;
     calls := calls c; nextObject := nextObject c |}.

Definition setAudioContextRef (a : option nat) (c : Component) : Component :=
  {| isActive := isActive c; status := status c; sessionRef := sessionRef c;
     audioContextRef := a;
     nextStartTimeRef := nextStartTimeRef c; sourcesRef := sourcesRef c;
     calls := calls c; nextObject := nextObject c |}.

Definition setNextStartTime (t : Q) (c : Component) : Component :=
  {| isActive := isActive c; status := status c; sessionRef := sessionRef c;
     audioContextRef := audioContextRef c;
     nextStartTimeRef := t; sourcesRef := sourcesRef c;
     calls := calls c; nextObject := nextObject c |}.

Definition setSources (l : list nat) (c : Component) : Component :=
  {| isActive := isActive c; status := status c; sessionRef := sessionRef c;
     audioContextRef := audioContextRef c;
     nextStartTimeRef := nextStartTimeRef c; sourcesRef := l;
     calls := calls c; nextObject := nextObject c |}.

(** Record a call. *)
Definition call (k : Call) (c : Component) : Component :=
  {| isActive := isActive c; status := status c; sessionRef := sessionRef c;
     audioContextRef := audioContextRef c;
     nextStartTimeRef := nextStartTimeRef c; sourcesRef := sourcesRef c;
     calls := calls c ++ [k]; nextObject := nextObject c |}.

(** A new object; its identity is the old [nextObject]. *)
Definition allocate (c : Component) : Component :=
  {| isActive := isActive c; status := status c; sessionRef := sessionRef c;
     audioContextRef := audioContextRef c;
     nextStartTimeRef := nextStartTimeRef c; sourcesRef := sourcesRef c;
     calls := calls c; nextObject := S (nextObject c) |}.

(** *** The server's messages *)

Record InlineData := { inline_data : option jsstring }.
Record Part := { inlineData : option InlineData }.
Record ModelTurn := { parts : option (list Part) }.
Record ServerContent := {
  modelTurn : option ModelTurn;
  interrupted : bool
}.
Record Message := { serverContent : option ServerContent }.

(** [message.serverContent?.modelTurn?.parts[0]?.inlineData?.data], line
    79.  Each [?.] ends the chain with [undefined]; [parts[0]] has no [?.]
    before it and throws a TypeError when [parts] is [undefined]. *)
Definition audioData_of (message : Message) : result (option jsstring) :=
  match serverContent message with
  | None => Ok None
  | Some sc =>
      match modelTurn sc with
      | None => Ok None
      | Some mt =>
          match parts mt with
          | None => Throw TypeError
          | Some ps =>
              match ps !! 0%nat with
              | None => Ok None
              | Some p =>
                  match inlineData p with
                  | None => Ok None
                  | Some d => Ok (inline_data d)
                  end
              end
          end
      end
  end.

(** [message.serverContent?.interrupted], read as a condition. *)
Definition interrupted_of (message : Message) : bool :=
  match serverContent message with
  | None => false
  | Some sc => interrupted sc
  end.

(** A string as a condition: the empty string is false. *)
Definition truthy (s : option jsstring) : option jsstring :=
  match s with
  | Some (_ :: _) => s
  | _ => None
  end.

(** The rate and channel count that [onmessage] passes to
    [decodeAudioData], line 81. *)
Definition inboundRate : Q := 24000.
Definition inboundChannels : nat := 1.

(** [decodeAudioData(decode(audioData), outputCtx, 24000, 1)], line 81. *)
Definition inbound_buffer (audioData : jsstring) : result AudioBuffer :=
  bytes ← decode audioData;
  decodeAudioData bytes inboundRate inboundChannels.

(** [Set.prototype.add]: insertion order, no second copy. *)
Definition set_add (x : nat) (s : list nat) : list nat :=
  if decide (x ∈ s) then s else s ++ [x].

(** [Set.prototype.delete]. *)
Definition set_delete (x : nat) (s : list nat) : list nat :=
  filter (fun y => y ≠ x) s.

(** Lines 82-89: a source for the buffer, started at the cursor moved up to
    the device time [now]; the cursor then moves by the buffer's
    duration. *)
Definition schedule (now : Q) (buffer : AudioBuffer) (c : Component)
  : Component :=
  let source := nextObject c in
  let c := allocate c in
  let c := setNextStartTime (Math_max (nextStartTimeRef c) now) c in
  let c := call (SourceStart source (nextStartTimeRef c) (duration buffer)) c in
  let c := setNextStartTime (nextStartTimeRef c + duration buffer)%Q c in
  setSources (set_add source (sourcesRef c)) c.

(** Lines 92-94. *)
Definition interrupt (c : Component) : Component :=
  let c := fold_left (fun c s => call (SourceStop s) c) (sourcesRef c) c in
  let c := setSources [] c in
  setNextStartTime 0 c.

(** How an asynchronous handler ended. *)
Inductive Completion :=
| Returned
| Rejected (e : JsError).

(** [onmessage], lines 78-96; [now] is [outputCtx.currentTime]. *)
Definition onmessage (now : Q) (message : Message) (c : Component)
  : Completion * Component :=
  match audioData_of message with
  | Throw e => (Rejected e, c)
  | Ok audioData =>
      let played :=
        match truthy audioData with
        | Some base64 =>
            buffer ← inbound_buffer base64;
            Ok (schedule now buffer c)
        | None => Ok c
        end in
      match played with
      | Throw e => (Rejected e, c)
      | Ok c =>
          (Returned, if interrupted_of message then interrupt c else c)
      end
  end.

(** [onerror], lines 97-100. *)
Definition onerror (c : Component) : Component :=
  setStatus "Error" (call ConsoleError c).

(** [onclose], lines 101-104. *)
Definition onclose (c : Component) : Component :=
  setStatus "Idle" (setIsActive false c).

(** [onopen], lines 61-77. *)
Definition onopen (c : Component) : Component :=
  call CaptureConnect (setStatus "Listening..." c).

(** [onaudioprocess], lines 65-74. *)
Definition onaudioprocess (inputData : list Q) (c : Component) : Component :=
  match encode (encodeOutbound inputData) with
  | Ok text =>
      call (SendRealtimeInput
              {| data := text; mimeType := "audio/pcm;rate=16000" |}) c
  | Throw _ => c
  end.

(** [source.onended], line 89. *)
Definition onended (source : nat) (c : Component) : Component :=
  setSources (set_delete source (sourcesRef c)) c.

(** The [catch] of [startSession], lines 115-118. *)
Definition startSession_catch (c : Component) : Component :=
  setStatus "Permission Denied" (call ConsoleError c).

(** [startSession], lines 49-119.  [mic] is the answer of [getUserMedia]
    and [conn] that of [ai.live.connect]. *)
Definition startSession (mic : MicOutcome) (conn : ConnOutcome)
    (c : Component) : Component :=
  let inputCtx := nextObject c in
  let c := call (NewAudioContext inputCtx 16000) (allocate c) in
  let outputCtx := nextObject c in
  let c := call (NewAudioContext outputCtx 24000) (allocate c) in
  let c := setAudioContextRef (Some outputCtx) c in
  let c := call (GetUserMedia mic) c in
  match mic with
  | MicDenied => startSession_catch c
  | MicGranted =>
      let c := call (LiveConnect conn) c in
      match conn with
      | ConnectFailed => startSession_catch c
      | Connected =>
          let session := nextObject c in
          let c := allocate c in
          setIsActive true (setSessionRef (Some session) c)
      end
  end.

(** [stopSession], lines 121-125. *)
Definition stopSession (c : Component) : Component :=
  let c :=
    match sessionRef c with
    | Some session => call (SessionClose session) c
    | None => c
    end in
  setStatus "Idle" (setIsActive false c).

(** What can happen to the component. *)
Inductive Event :=
| Start (mic : MicOutcome) (conn : ConnOutcome)
| Stop
| Open
| Incoming (now : Q) (message : Message)
| Failure
| Closed
| Ended (source : nat)
| AudioProcess (inputData : list Q).

Definition step (c : Component) (e : Event) : Component :=
  match e with
  | Start mic conn => startSession mic conn c
  | Stop => stopSession c
  | Open => onopen c
  | Incoming now message => snd (onmessage now message c)
  | Failure => onerror c
  | Closed => onclose c
  | Ended source => onended source c
  | AudioProcess inputData => onaudioprocess inputData c
  end.

(** The component after a sequence of events. *)
Definition run (es : list Event) (c : Component) : Component :=
  fold_left step es c.

(** ** Vocabulary of the statements *)

(** A message whose first part carries [audioData]. *)
Definition audio_message (audioData : jsstring) (interrupted : bool)
  : Message :=
  {| serverContent :=
       Some {| modelTurn :=
                 Some {| parts :=
                           Some [ {| inlineData :=
                                       Some {| inline_data :=
                                                 Some audioData |} |} ] |};
               interrupted := interrupted |} |}.

(** A message that carries only the interruption signal. *)
Definition interruption_message : Message :=
  {| serverContent := Some {| modelTurn := None; interrupted := true |} |}.

(** [message] delivers the chunk [audioData]. *)
Definition carries (message : Message) (audioData : jsstring) : Prop :=
  audioData_of message = Ok (Some audioData) /\ audioData <> [].

(** [message] carries no chunk. *)
Definition silent (message : Message) : Prop :=
  exists a, audioData_of message = Ok a /\ truthy a = None.

(** [message] delivers a chunk that decodes to [buffer]. *)
Definition plays (message : Message) (buffer : AudioBuffer) : Prop :=
  exists audioData,
    carries message audioData /\ inbound_buffer audioData = Ok buffer.

(** [message] delivers a chunk that decodes to [buffer], and no
    interruption. *)
Definition delivers (message : Message) (buffer : AudioBuffer) : Prop :=
  plays message buffer /\ interrupted_of message = false.

(** [message] is an interruption signal that [onmessage] handles: its
    flag is set, and its chunk, if it has one, decodes. *)
Definition signals_interruption (message : Message) : Prop :=
  interrupted_of message = true
  /\ (silent message \/ exists buffer, plays message buffer).

(** The event is an interruption that the handler reaches in state [c]. *)
Definition interrupts (c : Component) (e : Event) : Prop :=
  match e with
  | Incoming now message =>
      interrupted_of message = true
      /\ fst (onmessage now message c) = Returned
  | _ => False
  end.

(** The device time read by the handler of an event that delivers a
    message. *)
Definition device_time (e : Event) : option Q :=
  match e with
  | Incoming now _ => Some now
  | _ => None
  end.

(** The calls that give a device back. *)
Definition is_device_release (k : Call) : bool :=
  match k with
  | AudioContextClose _ | TrackStop => true
  | _ => false
  end.

(** The calls that close the connection of [session]. *)
Definition is_close_of (session : nat) (k : Call) : bool :=
  match k with
  | SessionClose s => (s =? session)%nat
  | _ => false
  end.

(** The calls that give any resource back. *)
Definition is_release (k : Call) : bool :=
  match k with
  | AudioContextClose _ | TrackStop | SessionClose _ => true
  | _ => false
  end.

(** The calls that take a resource. *)
Definition is_acquire (k : Call) : bool :=
  match k with
  | NewAudioContext _ _ | GetUserMedia MicGranted | LiveConnect Connected =>
      true
  | _ => false
  end.

(** How often a kind of call was made. *)
Definition count (p : Call -> bool) (c : Component) : nat :=
  length (List.filter p (calls c)).

(** ** Vocabulary of the further statements *)

(** The sources started so far, in the order of [source.start]. *)
Definition started (c : Component) : list nat :=
  omap (fun k => match k with SourceStart s _ _ => Some s | _ => None end)
    (calls c).

(** The sources stopped so far, in the order of [source.stop]. *)
Definition stopped (c : Component) : list nat :=
  omap (fun k => match k with SourceStop s => Some s | _ => None end)
    (calls c).

(** The calls made while [es] is handled from [c]. *)
Definition new_calls (es : list Event) (c : Component) : list Call :=
  drop (length (calls c)) (calls (run es c)).

(** No event of [es], handled in turn from [c], is an interruption. *)
Fixpoint quiet (es : list Event) (c : Component) : Prop :=
  match es with
  | [] => True
  | e :: es' => ~ interrupts c e /\ quiet es' (step c e)
  end.

Definition is_new_context (k : Call) : bool :=
  match k with
  | NewAudioContext _ _ => true
  | _ => false
  end.

Definition is_start (e : Event) : bool :=
  match e with
  | Start _ _ => true
  | _ => false
  end.

(** The handler of the button, line 144:
    [onClick={isActive ? stopSession : startSession}]; [mic] and [conn] are
    the answers a start would get. *)
Definition onClick (mic : MicOutcome) (conn : ConnOutcome) (c : Component)
  : Event :=
  if isActive c then Stop else Start mic conn.

(** The events that do not come from the button. *)
Definition is_callback (e : Event) : Prop :=
  match e with
  | Start _ _ | Stop => False
  | _ => True
  end.

(** The states of a component that is driven by its button and by the
    callbacks of the connection and of the devices; a click runs the handler
    that the button has in the state it is shown in. *)
Inductive ui_reachable : Component -> Prop :=
| ui_initial : ui_reachable initial
| ui_click c mic conn :
    ui_reachable c -> ui_reachable (step c (onClick mic conn c))
| ui_callback c e :
    ui_reachable c -> is_callback e -> ui_reachable (step c e).

(** The bookkeeping of sources is sound: no source was started twice or
    stopped twice, only started sources were stopped, and the set holds
    distinct sources that were started and not stopped. *)
Definition sources_consistent (c : Component) : Prop :=
  NoDup (started c)
  /\ NoDup (stopped c)
  /\ Forall (fun s => s ∈ started c) (stopped c)
  /\ NoDup (sourcesRef c)
  /\ Forall (fun s => s ∈ started c /\ s ∉ stopped c) (sourcesRef c)
  /\ Forall (fun s => (s < nextObject c)%nat) (started c).

(** * Proofs *)

(** Linear arithmetic with division and remainder by constants. *)
Ltac divlia := zify; Z.to_euclidean_division_equations; lia.

(** * Loops over typed arrays *)

Section Loops.
Context {A : Type}.

(** A loop that stores [f i] at every index [i] of a fresh array of [n]
    cells leaves [f 0, ..., f (n-1)]. *)
Lemma store_loop_prefix (f : nat -> A) (d : A) (n k : nat) :
  (k <= n)%nat ->
  fold_left (fun acc i => <[i := f i]> acc) (seq 0 k) (replicate n d)
  = (f <$> seq 0 k) ++ replicate (n - k) d.
Proof.
  induction k as [|k IH]; intros Hk.
  - simpl. by rewrite Nat.sub_0_r.
  - rewrite seq_S, fold_left_app, IH by lia. simpl.
    rewrite fmap_app. simpl.
    rewrite insert_app_r_alt by (rewrite length_fmap, length_seq; lia).
    rewrite length_fmap, length_seq, Nat.sub_diag.
    replace (n - k)%nat with (S (n - S k)) by lia. simpl.
    by rewrite <- app_assoc.
Qed.

Lemma store_loop (f : nat -> A) (d : A) (n : nat) :
  fold_left (fun acc i => <[i := f i]> acc) (seq 0 n) (replicate n d)
  = f <$> seq 0 n.
Proof.
  rewrite store_loop_prefix by lia.
  by rewrite Nat.sub_diag, app_nil_r.
Qed.

(** A loop that appends [f i] for every index. *)
Lemma append_loop (f : nat -> list A) (n : nat) (acc : list A) :
  fold_left (fun acc i => acc ++ f i) (seq 0 n) acc
  = acc ++ concat (f <$> seq 0 n).
Proof.
  induction n as [|n IH].
  - simpl. by rewrite app_nil_r.
  - rewrite seq_S, fold_left_app, IH. simpl.
    rewrite fmap_app, concat_app. simpl.
    by rewrite app_nil_r, app_assoc.
Qed.

(** Reading every cell of a list in turn. *)
Lemma read_all {B : Type} (g : option A -> B) (l : list A) :
  (fun i => g (l !! i)) <$> seq 0 (length l) = (fun x => g (Some x)) <$> l.
Proof.
  apply list_eq. intros i.
  rewrite !list_lookup_fmap.
  destruct (decide (i < length l)%nat) as [Hi|Hi].
  - rewrite lookup_seq_lt by done. simpl.
    destruct (lookup_lt_is_Some_2 l i Hi) as [x Hx]. by rewrite Hx.
  - rewrite lookup_seq_ge by lia.
    by rewrite lookup_ge_None_2 by lia.
Qed.
End Loops.
Module Base64Facts.
Import Base64.
Local Open Scope N_scope.

(** Lists three elements at a time. *)
Lemma list_ind3 {A} (P : list A -> Prop) :
  P [] -> (forall a, P [a]) -> (forall a b, P [a; b]) ->
  (forall a b c l, P l -> P (a :: b :: c :: l)) ->
  forall l, P l.
Proof.
  intros H0 H1 H2 H3.
  fix IH 1. intros [|a [|b [|c l]]]; [exact H0|exact (H1 a)|exact (H2 a b)|].
  exact (H3 a b c l (IH l)).
Qed.

Lemma char_of_facts v :
  v < 64 ->
  value_of (char_of v) = Some v
  /\ is_ascii_whitespace (char_of v) = false
  /\ char_of v <> pad.
Proof.
  intros Hv. destruct v as [|p]; [by vm_compute|].
  do 6 (try destruct p as [p|p|]); try (by vm_compute); lia.
Qed.

Lemma sextets_bound bs :
  Forall (fun b => b < 256) bs -> Forall (fun v => v < 64) (sextets bs).
Proof.
  induction bs as [|a|a b|a b c l IH] using list_ind3; intros H; simpl.
  - constructor.
  - inversion_clear H. repeat constructor; divlia.
  - inversion_clear H as [|? ? ? H']. inversion_clear H'.
    repeat constructor; divlia.
  - inversion_clear H as [|? ? ? H']. inversion_clear H' as [|? ? ? H''].
    inversion_clear H''.
    repeat (constructor; [divlia|]). auto.
Qed.

Lemma sextets_length bs :
  exists k, (length (sextets bs) + length (padding bs) = 4 * k)%nat
            /\ (length (sextets bs) mod 4 <> 1)%nat.
Proof.
  induction bs as [|a|a b|a b c l IH] using list_ind3.
  - by exists 0%nat.
  - by exists 1%nat.
  - by exists 1%nat.
  - destruct IH as (k & Hk & Hm). exists (S k).
    assert (Hp : padding (a :: b :: c :: l) = padding l).
    { unfold padding. simpl length.
      by replace (S (S (S (length l)))) with (length l + 1 * 3)%nat
        by lia; rewrite Nat.Div0.mod_add. }
    rewrite Hp. simpl length. split; [lia|].
    replace (S (S (S (S (length (sextets l))))))
      with (length (sextets l) + 1 * 4)%nat by lia.
    by rewrite Nat.Div0.mod_add.
Qed.

Lemma filter_all {A} (P : A -> Prop) `{forall x, Decision (P x)} l :
  Forall P l -> filter P l = l.
Proof.
  induction 1 as [|x l Hx Hl IH]; [done|].
  by rewrite filter_cons_True, IH.
Qed.

Lemma drop_last_pad_snoc l : drop_last_pad (l ++ [pad]) = Some l.
Proof.
  unfold drop_last_pad. rewrite rev_app_distr. simpl.
  by rewrite rev_involutive.
Qed.

Lemma drop_last_pad_none l :
  Forall (fun c => c <> pad) l -> drop_last_pad l = None.
Proof.
  intros H. unfold drop_last_pad.
  destruct (rev l) as [|c r] eqn:E; [done|].
  assert (Hc : In c l) by (apply in_rev; rewrite E; by left).
  rewrite List.Forall_forall in H. specialize (H c Hc).
  by destruct (N.eqb_spec c pad).
Qed.

Lemma body_no_pad vs :
  Forall (fun v => v < 64) vs -> Forall (fun c => c <> pad) (char_of <$> vs).
Proof.
  intros H. apply Forall_fmap. eapply Forall_impl; [exact H|].
  intros v Hv. by apply char_of_facts.
Qed.

(** Stripping the padding of an encoding leaves its characters. *)
Lemma strip_padding_encode bs :
  Forall (fun b => b < 256) bs ->
  strip_padding (encode_bytes bs) = char_of <$> sextets bs.
Proof.
  intros Hbs. pose proof (body_no_pad _ (sextets_bound _ Hbs)) as Hbody.
  destruct (sextets_length bs) as (k & Hk & _).
  unfold strip_padding, encode_bytes.
  rewrite length_app, length_fmap, Hk.
  replace (4 * k)%nat with (0 + k * 4)%nat by lia.
  rewrite Nat.Div0.mod_add. simpl.
  unfold padding.
  destruct (length bs mod 3)%nat as [|[|[|n]]].
  - rewrite app_nil_r. by rewrite drop_last_pad_none.
  - change [pad; pad] with ([pad] ++ [pad]). rewrite app_assoc.
    by rewrite !drop_last_pad_snoc.
  - rewrite drop_last_pad_snoc. by rewrite drop_last_pad_none.
  - rewrite app_nil_r. by rewrite drop_last_pad_none.
Qed.

Lemma encode_no_whitespace bs :
  Forall (fun b => b < 256) bs ->
  filter (fun c => is_ascii_whitespace c = false) (encode_bytes bs)
  = encode_bytes bs.
Proof.
  intros Hbs. apply filter_all. unfold encode_bytes. apply Forall_app. split.
  - apply Forall_fmap. eapply Forall_impl; [exact (sextets_bound _ Hbs)|].
    intros v Hv. by apply char_of_facts.
  - unfold padding. destruct (length bs mod 3)%nat as [|[|[|n]]];
      repeat constructor.
Qed.

Lemma values_of_chars vs :
  Forall (fun v => v < 64) vs -> mapM value_of (char_of <$> vs) = Some vs.
Proof.
  intros H. apply mapM_Some. apply Forall2_fmap_l.
  apply Forall_Forall2_diag. eapply Forall_impl; [exact H|].
  intros v Hv. by apply char_of_facts.
Qed.

Lemma feed_0 out buf v : feed (out, buf, 0) v = (out, buf * 64 + v, 6).
Proof. reflexivity. Qed.
Lemma feed_6 out buf v : feed (out, buf, 6) v = (out, buf * 64 + v, 12).
Proof. reflexivity. Qed.
Lemma feed_12 out buf v : feed (out, buf, 12) v = (out, buf * 64 + v, 18).
Proof. reflexivity. Qed.
Lemma feed_18 out buf v :
  feed (out, buf, 18) v
  = (out ++ [(buf * 64 + v) / 65536; ((buf * 64 + v) / 256) mod 256;
             (buf * 64 + v) mod 256], 0, 0).
Proof. reflexivity. Qed.

(** Four groups give back the three bytes they were cut from. *)
Lemma feed_group out a b c :
  a < 256 -> b < 256 -> c < 256 ->
  fold_left feed
    [a / 4; (a mod 4) * 16 + b / 16; (b mod 16) * 4 + c / 64; c mod 64]
    (out, 0, 0)
  = (out ++ [a; b; c], 0, 0).
Proof.
  intros Ha Hb Hc. cbn [fold_left].
  rewrite feed_0, feed_6, feed_12, feed_18.
  assert (E : (((0 * 64 + a / 4) * 64 + (a mod 4 * 16 + b / 16)) * 64
               + (b mod 16 * 4 + c / 64)) * 64 + c mod 64
              = a * 65536 + b * 256 + c) by divlia.
  rewrite E.
  do 3 f_equal. f_equal; [divlia|]. f_equal; [divlia|]. f_equal; divlia.
Qed.

Lemma decode_values_from out bs :
  Forall (fun b => b < 256) bs ->
  flush (fold_left feed (sextets bs) (out, 0, 0)) = out ++ bs.
Proof.
  revert out.
  induction bs as [|a|a b|a b c l IH] using list_ind3; intros out H.
  - simpl. by rewrite app_nil_r.
  - inversion_clear H. cbn [fold_left sextets]. rewrite feed_0, feed_6.
    unfold flush. simpl. do 2 f_equal. divlia.
  - inversion_clear H as [|? ? ? H']. inversion_clear H'.
    cbn [fold_left sextets]. rewrite feed_0, feed_6, feed_12.
    unfold flush. simpl.
    assert (E : ((0 * 64 + a / 4) * 64 + (a mod 4 * 16 + b / 16)) * 64
                + b mod 16 * 4
                = (a * 256 + b) * 4) by divlia.
    rewrite E. f_equal. f_equal; [divlia|]. f_equal; divlia.
  - inversion_clear H as [|? ? ? H']. inversion_clear H' as [|? ? ? H''].
    inversion_clear H''.
    change (sextets (a :: b :: c :: l))
      with ([a / 4; (a mod 4) * 16 + b / 16; (b mod 16) * 4 + c / 64;
             c mod 64] ++ sextets l).
    rewrite fold_left_app, feed_group by done.
    rewrite IH by done. by rewrite <- app_assoc.
Qed.

(** [atob] undoes [btoa] on binary strings. *)
Lemma atob_encode bs :
  Forall (fun b => b < 256) bs -> atob (encode_bytes bs) = Ok bs.
Proof.
  intros Hbs. unfold atob.
  rewrite encode_no_whitespace, strip_padding_encode by done.
  rewrite length_fmap.
  destruct (sextets_length bs) as (k & _ & Hm).
  destruct (Nat.eqb_spec (length (sextets bs) mod 4) 1); [done|].
  rewrite values_of_chars by by apply sextets_bound.
  unfold decode_values. by rewrite decode_values_from.
Qed.

Lemma btoa_bytes bs :
  Forall (fun b => b < 256) bs -> btoa bs = Ok (encode_bytes bs).
Proof.
  intros H. unfold btoa.
  replace (forallb (fun c => c <=? 255) bs) with true; [done|].
  symmetry. apply forallb_forall. intros c Hc.
  rewrite List.Forall_forall in H. specialize (H c Hc).
  apply N.leb_le. lia.
Qed.
End Base64Facts.

(** * The transport encoding *)

Lemma ToUint8_to_N (b : byte) : ToUint8 (Byte.to_N b) = b.
Proof.
  unfold ToUint8. pose proof (Byte.to_N_bounded b).
  rewrite N.mod_small by lia. by rewrite Byte.of_to_N.
Qed.

Lemma byte_codes_bounded (b : list byte) :
  Forall (fun c => (c < 256)%N) (Byte.to_N <$> b).
Proof.
  apply Forall_fmap, Forall_forall. intros x _. simpl.
  pose proof (Byte.to_N_bounded x). lia.
Qed.

(** The binary string that [encode] builds holds the bytes as codes. *)
Lemma encode_binary (bytes : list byte) :
  fold_left (fun binary i => binary ++ fromCharCode (byte_code bytes i))
    (seq 0 (length bytes)) []
  = Byte.to_N <$> bytes.
Proof.
  rewrite append_loop, app_nil_l.
  unfold byte_code.
  rewrite (read_all
             (fun o => fromCharCode match o with
                                    | Some b => Byte.to_N b
                                    | None => 0%N
                                    end) bytes).
  induction bytes as [|x l IH]; [done|].
  rewrite !fmap_cons. cbn [concat]. rewrite IH. unfold fromCharCode.
  pose proof (Byte.to_N_bounded x).
  by rewrite N.mod_small by lia.
Qed.

(** The byte array that [decode] fills holds the codes of the string. *)
Lemma decode_bytes (binaryString : jsstring) :
  fold_left (fun bytes i => <[i := charCodeAt_u8 binaryString i]> bytes)
    (seq 0 (length binaryString)) (replicate (length binaryString) x00)
  = ToUint8 <$> binaryString.
Proof.
  rewrite store_loop. unfold charCodeAt_u8.
  by rewrite (read_all (fun o => match o with
                                 | Some c => ToUint8 c
                                 | None => x00
                                 end) binaryString).
Qed.

Lemma encode_eq (bytes : list byte) :
  encode bytes = Ok (Base64.encode_bytes (Byte.to_N <$> bytes)).
Proof.
  unfold encode. rewrite encode_binary.
  apply Base64Facts.btoa_bytes, byte_codes_bounded.
Qed.

(** C4.  For every byte sequence [b], decoding the base64 text that [encode]
    produces for [b] gives [b] back: [encode] returns a text, and [decode]
    of that text returns [b]. *)
Theorem base64_round_trip (b : list byte) :
  exists text, encode b = Ok text /\ decode text = Ok b.
Proof.
  eexists. split; [apply encode_eq|].
  unfold decode.
  rewrite Base64Facts.atob_encode by apply byte_codes_bounded.
  simpl. rewrite decode_bytes. f_equal.
  rewrite <- list_fmap_compose.
  rewrite <- (list_fmap_id b) at 2.
  apply list_fmap_ext. intros _ x _. simpl. apply ToUint8_to_N.
Qed.

(** * Outbound PCM *)

Section Store2.
Context {A : Type}.

(** A loop that stores two cells per step. *)
Lemma store2_loop_prefix (f g : nat -> A) (d : A) (n k : nat) :
  (k <= n)%nat ->
  fold_left (fun acc i => <[(2 * i + 1)%nat := g i]> (<[(2 * i)%nat := f i]> acc))
    (seq 0 k) (replicate (2 * n) d)
  = concat ((fun i => [f i; g i]) <$> seq 0 k) ++ replicate (2 * (n - k)) d.
Proof.
  induction k as [|k IH]; intros Hk.
  - simpl. by rewrite Nat.sub_0_r.
  - rewrite seq_S, fold_left_app, IH by lia. cbn [fold_left Nat.add].
    rewrite fmap_app, concat_app. cbn [fmap list_fmap concat].
    set (pre := concat ((fun i => [f i; g i]) <$> seq 0 k)).
    assert (Hpre : length pre = (2 * k)%nat).
    { subst pre. clear. induction k as [|k IH]; [done|].
      rewrite seq_S, fmap_app, concat_app, length_app, IH. simpl. lia. }
    replace (2 * (n - k))%nat with (S (S (2 * (n - S k)))) by lia.
    cbn [replicate].
    rewrite (insert_app_r_alt pre _ (2 * k)) by lia.
    rewrite (insert_app_r_alt pre _ (2 * k + 1)) by lia.
    rewrite Hpre.
    replace (2 * k - 2 * k)%nat with 0%nat by lia.
    replace (2 * k + 1 - 2 * k)%nat with 1%nat by lia.
    simpl. by rewrite <- app_assoc.
Qed.
End Store2.

Lemma byte_of_Z_congr (a b : Z) :
  a mod 256 = b mod 256 -> byte_of_Z a = byte_of_Z b.
Proof. unfold byte_of_Z. by intros ->. Qed.

(** The stored integer and the truncated number agree modulo 2^16. *)
Lemma ToInt16_congr (x : Q) : ToInt16 x mod 65536 = Qtrunc x mod 65536.
Proof.
  unfold ToInt16. destruct (Z.ltb_spec (Qtrunc x mod 65536) 32768); divlia.
Qed.

Lemma ToInt16_range (x : Q) : -32768 <= ToInt16 x <= 32767.
Proof.
  unfold ToInt16. destruct (Z.ltb_spec (Qtrunc x mod 65536) 32768); divlia.
Qed.

Lemma ToInt16_small (x : Q) :
  -32768 <= Qtrunc x <= 32767 -> ToInt16 x = Qtrunc x.
Proof.
  intros H. unfold ToInt16.
  destruct (Z.ltb_spec (Qtrunc x mod 65536) 32768); divlia.
Qed.

Lemma int16_le_congr (a b : Z) :
  a mod 65536 = b mod 65536 -> int16_le a = int16_le b.
Proof.
  intros H. unfold int16_le.
  f_equal; [|f_equal]; apply byte_of_Z_congr; divlia.
Qed.

Lemma Qtrunc_ToInt16_bytes (x : Q) : int16_le (ToInt16 x) = int16_le (Qtrunc x).
Proof. apply int16_le_congr, ToInt16_congr. Qed.

(** The buffer under [int16] after the loop of [onaudioprocess]. *)
Lemma encodeOutbound_eq (inputData : list Q) :
  encodeOutbound inputData
  = concat ((fun s => int16_le (ToInt16 (s * 32768))) <$> inputData).
Proof.
  unfold encodeOutbound, Int16Array_store.
  rewrite (store2_loop_prefix
             (fun i => byte_of_Z (ToInt16 (sample_at inputData i * 32768)))
             (fun i => byte_of_Z (ToInt16 (sample_at inputData i * 32768) / 256)))
    by lia.
  rewrite Nat.sub_diag, app_nil_r. unfold sample_at.
  by rewrite (read_all
                (fun o => [byte_of_Z (ToInt16 (default 0%Q o * 32768));
                           byte_of_Z (ToInt16 (default 0%Q o * 32768) / 256)])
                inputData).
Qed.

(** A sample in [-1,1] scales to a number whose truncation lies between
    -32768 and 32768; only the sample 1 reaches 32768. *)
Lemma scaled_range (s : Q) :
  (-1 <= s <= 1)%Q -> -32768 <= Qtrunc (s * 32768) <= 32768.
Proof.
  destruct s as [n d]. unfold Qle, Qtrunc. simpl.
  rewrite Pos.mul_1_r. intros [Hlo Hhi].
  split.
  - apply Z.quot_le_lower_bound; lia.
  - apply Z.quot_le_upper_bound; lia.
Qed.

Lemma scaled_below (s : Q) :
  (-1 <= s)%Q -> (s < 1)%Q -> -32768 <= Qtrunc (s * 32768) <= 32767.
Proof.
  destruct s as [n d]. unfold Qle, Qlt, Qtrunc. simpl.
  rewrite Pos.mul_1_r. intros Hlo Hhi.
  split.
  - apply Z.quot_le_lower_bound; lia.
  - destruct (Z.le_gt_cases 0 n).
    + enough (n * 32768 ÷ Z.pos d < 32768) by lia.
      apply Z.quot_lt_upper_bound; lia.
    + enough (n * 32768 ÷ Z.pos d <= 0) by lia.
      apply Z.quot_le_upper_bound; lia.
Qed.

Lemma to_N_ToUint8 (n : N) : Byte.to_N (ToUint8 n) = (n mod 256)%N.
Proof.
  unfold ToUint8.
  destruct (Byte.of_N (n mod 256)) as [b|] eqn:E.
  - simpl. by apply Byte.to_of_N.
  - exfalso. pose proof (Byte.to_of_N_option_map (n mod 256)) as H.
    rewrite E in H. simpl in H.
    destruct (N.leb_spec (n mod 256) 255) as [|Hgt]; [done|].
    pose proof (N.mod_upper_bound n 256). lia.
Qed.

(** Reading two packed bytes back gives the 16-bit integer. *)
Lemma int16_of_le_packed (v : Z) :
  -32768 <= v <= 32767 ->
  int16_of_le (byte_of_Z v) (byte_of_Z (v / 256)) = v.
Proof.
  intros Hv. unfold int16_of_le, byte_of_Z. rewrite !to_N_ToUint8.
  rewrite !N2Z.inj_mod, !Z2N.id by (apply Z.mod_pos_bound; lia).
  change (Z.of_N 256) with 256.
  destruct (Z.ltb_spec
              ((v mod 256) mod 256 + 256 * (((v / 256) mod 256) mod 256))
              32768); divlia.
Qed.

Lemma int16_elements_packed (vs : list Z) :
  Forall (fun v => -32768 <= v <= 32767) vs ->
  int16_elements (concat (int16_le <$> vs)) = vs.
Proof.
  induction 1 as [|v vs Hv _ IH]; [done|].
  rewrite fmap_cons. cbn [concat int16_le app int16_elements].
  by rewrite int16_of_le_packed, IH.
Qed.

Lemma length_packed {A} (f : A -> list byte) (l : list A) :
  (forall x, length (f x) = 2%nat) ->
  length (concat (f <$> l)) = (2 * length l)%nat.
Proof.
  intros Hf. induction l as [|x l IH]; [done|].
  rewrite fmap_cons. cbn [concat]. rewrite length_app, Hf, IH. simpl. lia.
Qed.

(** C5.  For every sequence of samples in [-1,1], the bytes built by the
    outbound encoder are those of the specification: each sample scaled by
    32768, truncated to an integer and packed as 16 bits, low byte first.
    The output has two bytes per sample; read back as little-endian 16-bit
    integers it holds the integers stored by the loop, each the truncated
    scaled sample whenever the sample is below 1. *)
Theorem encodeOutbound_correct (samples : list Q) :
  Forall (fun s => (-1 <= s <= 1)%Q) samples ->
  encodeOutbound samples = encodeOutbound_spec samples
  /\ length (encodeOutbound samples) = (2 * length samples)%nat
  /\ int16_elements (encodeOutbound samples)
     = (fun s => ToInt16 (s * 32768)) <$> samples
  /\ Forall (fun s => -32768 <= Qtrunc (s * 32768) <= 32768
                      /\ ((s < 1)%Q ->
                          ToInt16 (s * 32768) = Qtrunc (s * 32768)))
       samples.
Proof.
  intros Hs. rewrite encodeOutbound_eq. repeat split.
  - unfold encodeOutbound_spec. f_equal.
    apply list_fmap_ext. intros _ s _. apply Qtrunc_ToInt16_bytes.
  - by apply length_packed.
  - rewrite (list_fmap_compose (fun s => ToInt16 (s * 32768)) int16_le).
    apply int16_elements_packed, Forall_fmap, Forall_forall.
    intros s _. apply ToInt16_range.
  - eapply Forall_impl; [exact Hs|]. intros s [Hlo Hhi]. split.
    + by apply scaled_range.
    + intros Hlt. apply ToInt16_small. by apply scaled_below.
Qed.

Lemma encodeOutbound_correct_witness :
  let samples := [1; -1; 1 # 2; 0; -1 # 3]%Q in
  Forall (fun s => (-1 <= s <= 1)%Q) samples
  /\ encodeOutbound samples
     = [x00; x80; x00; x80; x00; x40; x00; x00; x56; xd5]
  /\ encodeOutbound samples = encodeOutbound_spec samples.
Proof.
  assert (H : Forall (fun s => (-1 <= s <= 1)%Q) [1; -1; 1 # 2; 0; -1 # 3]%Q).
  { repeat constructor; unfold Qle; simpl; lia. }
  split; [exact H|]. split; [reflexivity|].
  exact (proj1 (encodeOutbound_correct _ H)).
Defined.

(** C10.  The sample 1.0, at the upper end of [-1,1], scales to 32768,
    which the store into the [Int16Array] reduces modulo 2^16 to -32768 (bytes
    00 80): the extreme negative value, not the clamped 32767. *)
Theorem sample_one_wraps :
  Qtrunc (1 * 32768) = 32768
  /\ ToInt16 (1 * 32768) = 32768 - 65536
  /\ ToInt16 (1 * 32768) = -32768
  /\ ToInt16 (1 * 32768) <> 32767
  /\ encodeOutbound [1%Q] = [x00; x80]
  /\ int16_elements (encodeOutbound [1%Q]) = [-32768].
Proof. repeat split; done. Qed.

(** * Inbound PCM *)

(** The truncated quotient of two counts. *)
Lemma Qtrunc_ratio (n c : nat) :
  (0 < c)%nat ->
  Qtrunc (inject_Z (Z.of_nat n) / inject_Z (Z.of_nat c))
  = Z.of_nat n ÷ Z.of_nat c.
Proof.
  intros Hc. destruct c as [|k]; [lia|].
  unfold Qtrunc, Qdiv, Qmult, Qinv, inject_Z. simpl.
  by rewrite Z.mul_1_r.
Qed.

(** The frames of the buffer that [decodeAudioData] creates. *)
Lemma createBuffer_frames (n c : nat) rate b :
  createBuffer c (inject_Z (Z.of_nat n) / inject_Z (Z.of_nat c)) rate = Ok b ->
  frames b = Z.to_nat ((Z.of_nat n ÷ Z.of_nat c) mod 2 ^ 32).
Proof.
  unfold createBuffer. destruct (Nat.eqb_spec c 0) as [|Hc]; [done|].
  rewrite Qtrunc_ratio by lia.
  destruct (_ || _); [done|]. by intros [= <-].
Qed.

(** Where [dataInt16[i * numChannels + channel]] is [undefined], the index
    [i] is past the end of the channel, so the store of line 30 does
    nothing, whatever is stored. *)
Lemma undefined_sample_out_of_range (dataInt16 : list Z)
    (numChannels channel i : nat) (rate : Q) (b : AudioBuffer)
    (channelData : list Q) (x : Q) :
  (channel < numChannels)%nat ->
  dataInt16 !! (i * numChannels + channel)%nat = None ->
  createBuffer numChannels
    (inject_Z (Z.of_nat (length dataInt16))
     / inject_Z (Z.of_nat numChannels)) rate = Ok b ->
  length channelData = frames b ->
  <[i := x]> channelData = channelData.
Proof.
  intros Hch Hnone Hb Hlen. apply list_insert_ge.
  rewrite Hlen, (createBuffer_frames _ _ _ _ Hb).
  apply lookup_ge_None in Hnone.
  assert (Hq : Z.of_nat (length dataInt16) ÷ Z.of_nat numChannels
               <= Z.of_nat i).
  { rewrite Z.quot_div_nonneg by lia.
    apply Z.lt_succ_r, Z.div_lt_upper_bound; lia. }
  assert (0 <= Z.of_nat (length dataInt16) ÷ Z.of_nat numChannels).
  { apply Z.quot_pos; lia. }
  divlia.
Qed.

Lemma list_ind2 {A} (P : list A -> Prop) :
  P [] -> (forall a, P [a]) -> (forall a b l, P l -> P (a :: b :: l)) ->
  forall l, P l.
Proof.
  intros H0 H1 H2. fix IH 1. intros [|a [|b l]]; [exact H0|exact (H1 a)|].
  exact (H2 a b l (IH l)).
Qed.

Lemma int16_elements_length (buffer : list byte) :
  length (int16_elements buffer) = (length buffer / 2)%nat.
Proof.
  induction buffer as [|a|a b l IH] using list_ind2; try done.
  cbn [int16_elements length]. rewrite IH.
  change (S (S (length l))) with (1 * 2 + length l)%nat.
  by rewrite Nat.div_add_l.
Qed.

Lemma fold_left_ext_in {A B} (f g : A -> B -> A) (l : list B) (a : A) :
  (forall acc x, x ∈ l -> f acc x = g acc x) ->
  fold_left f l a = fold_left g l a.
Proof.
  revert a. induction l as [|x l IH]; intros a H; [done|].
  simpl. rewrite H by left. apply IH. intros acc y Hy. apply H. by right.
Qed.

Lemma Qceiling_count (n : nat) :
  Qceiling (inject_Z (Z.of_nat n) / inject_Z (Z.of_nat 1)) = Z.of_nat n.
Proof.
  unfold Qceiling, Qfloor, Qdiv, Qmult, Qinv, Qopp, inject_Z. simpl.
  rewrite Z.mul_1_r, Z.div_1_r. lia.
Qed.

(** What [decodeAudioData] gives for one channel: a frame per 16-bit
    integer of the data, each divided by 32768. *)
Lemma decodeAudioData_mono (data : list byte) (rate : Q) :
  (length data mod 2 = 0)%nat ->
  (0 < length data)%nat ->
  Z.of_nat (length data / 2) < 2 ^ 32 ->
  (0 < rate)%Q ->
  decodeAudioData data rate 1
  = Ok {| numberOfChannels := 1;
          frames := (length data / 2)%nat;
          sampleRate := rate;
          channels := [(fun v => (inject_Z v / 32768)%Q)
                         <$> int16_elements data] |}.
Proof.
  intros Heven Hpos Hsmall Hrate.
  unfold decodeAudioData, Int16Array_of_buffer.
  rewrite Heven. simpl mbind.
  set (d := int16_elements data).
  assert (Hd : length d = (length data / 2)%nat)
    by apply int16_elements_length.
  assert (Hn : (0 < length d)%nat).
  { rewrite Hd. apply Nat.div_str_pos. split; [lia|].
    destruct (length data) as [|[|k]]; [lia|by vm_compute in Heven|lia]. }
  unfold createBuffer. rewrite Qtrunc_ratio by lia.
  rewrite Z.quot_1_r, Z.mod_small by lia. rewrite Nat2Z.id.
  destruct (Nat.eqb_spec (length d) 0) as [|_]; [lia|].
  replace (Qle_bool rate 0) with false; [|symmetry].
  2:{ apply not_true_is_false. intros H. apply Qle_bool_iff in H.
      by apply Qle_not_lt in H. }
  cbn [orb Nat.eqb mbind result_bind numberOfChannels frames sampleRate
       channels].
  rewrite Hd at 1. do 2 f_equal.
  unfold fill_channels, indices_below. rewrite Qceiling_count, Nat2Z.id.
  cbn [seq fold_left replicate]. cbn [lookup list_lookup].
  cbn [insert list_insert]. f_equal.
  rewrite (fold_left_ext_in _
             (fun cd i =>
                <[i := (inject_Z (default 0%Z (d !! i)) / 32768)%Q]> cd)).
  - rewrite store_loop.
    by rewrite (read_all (fun o => (inject_Z (default 0%Z o) / 32768)%Q) d).
  - intros cd i Hi. apply elem_of_seq in Hi as [_ Hi]. simpl in Hi.
    unfold store_sample. rewrite Nat.mul_1_r, Nat.add_0_r.
    destruct (lookup_lt_is_Some_2 d i Hi) as [v ->]. done.
Qed.

(** * Playback scheduler *)

Lemma Math_max_ge_l (a b : Q) : (a <= Math_max a b)%Q.
Proof.
  unfold Math_max. destruct (a ?= b)%Q eqn:E; try apply Qle_refl.
  apply Qlt_le_weak. by apply Qlt_alt.
Qed.

Lemma Math_max_ge_r (a b : Q) : (b <= Math_max a b)%Q.
Proof.
  unfold Math_max. destruct (a ?= b)%Q eqn:E.
  - apply Qeq_alt in E. rewrite E. apply Qle_refl.
  - apply Qle_refl.
  - apply Qlt_le_weak. by apply Qgt_alt.
Qed.

(** When the device time has not passed the cursor, the cursor is kept. *)
Lemma Math_max_left (a b : Q) : (b <= a)%Q -> Math_max a b = a.
Proof.
  intros H. unfold Math_max. destruct (a ?= b)%Q eqn:E; try done.
  apply Qlt_alt in E. by apply Qle_not_lt in H.
Qed.

Lemma createBuffer_Ok numChannels len rate b :
  createBuffer numChannels len rate = Ok b ->
  sampleRate b = rate /\ (0 < rate)%Q /\ (1 <= frames b)%nat
  /\ numberOfChannels b = numChannels.
Proof.
  unfold createBuffer.
  destruct (Nat.eqb_spec numChannels 0); [done|].
  destruct (Nat.eqb_spec (Z.to_nat (Qtrunc len mod 2 ^ 32)) 0); [done|].
  destruct (Qle_bool rate 0) eqn:E; [done|]. simpl.
  intros [= <-]. simpl. repeat split; try lia.
  apply Qnot_le_lt. intros H. apply Qle_bool_iff in H. congruence.
Qed.

Lemma decodeAudioData_Ok data rate numChannels b :
  decodeAudioData data rate numChannels = Ok b ->
  sampleRate b = rate /\ (0 < rate)%Q /\ (1 <= frames b)%nat.
Proof.
  unfold decodeAudioData.
  destruct (Int16Array_of_buffer data) as [d|]; [|done]. simpl.
  destruct (createBuffer _ _ _) as [b0|] eqn:E; [|done]. simpl.
  intros [= <-]. simpl. apply createBuffer_Ok in E. tauto.
Qed.

(** A decoded buffer has a duration that is not negative. *)
Lemma inbound_duration audioData b :
  inbound_buffer audioData = Ok b -> (0 <= duration b)%Q.
Proof.
  unfold inbound_buffer. destruct (decode audioData) as [bytes|]; [|done].
  simpl. intros H. apply decodeAudioData_Ok in H as (Hr & Hpos & _).
  unfold duration. rewrite Hr. apply Qle_shift_div_l; [done|].
  rewrite Qmult_0_l. unfold Qle. simpl. lia.
Qed.

Lemma truthy_carried (audioData : jsstring) :
  audioData <> [] -> truthy (Some audioData) = Some audioData.
Proof. by destruct audioData. Qed.

(** What [onmessage] does with a message, by the kind of the message. *)
Lemma onmessage_plays now m b c :
  plays m b ->
  onmessage now m c
  = (Returned,
     if interrupted_of m then interrupt (schedule now b c)
     else schedule now b c).
Proof.
  intros (d & (Ha & Hne) & Hb). unfold onmessage.
  by rewrite Ha, truthy_carried, Hb.
Qed.

Lemma onmessage_silent now m c :
  silent m ->
  onmessage now m c
  = (Returned, if interrupted_of m then interrupt c else c).
Proof.
  intros (a & Ha & Ht). unfold onmessage. by rewrite Ha, Ht.
Qed.

Lemma onmessage_delivers now m b c :
  delivers m b -> onmessage now m c = (Returned, schedule now b c).
Proof.
  intros [Hp Hi]. by rewrite (onmessage_plays _ _ b), Hi.
Qed.

Lemma onmessage_rejected now m c e :
  fst (onmessage now m c) = Rejected e -> snd (onmessage now m c) = c.
Proof.
  unfold onmessage. destruct (audioData_of m) as [a|]; [|done].
  destruct (truthy a) as [d|]; [|done].
  by destruct (inbound_buffer d).
Qed.

(** Every handled message is silent or plays a buffer. *)
Lemma onmessage_returned now m c :
  fst (onmessage now m c) = Returned ->
  silent m \/ exists b, plays m b.
Proof.
  unfold onmessage, silent, plays, carries.
  destruct (audioData_of m) as [a|] eqn:Ha; [|done].
  destruct (truthy a) as [d|] eqn:Ht.
  - destruct (inbound_buffer d) as [b|] eqn:Hb; [|done].
    intros _. right. exists b, d.
    destruct a as [[|x l]|]; try done. simpl in Ht. by simplify_eq.
  - intros _. left. by exists a.
Qed.

Lemma interrupt_calls_from (l : list nat) (c : Component) :
  calls (fold_left (fun c s => call (SourceStop s) c) l c)
  = calls c ++ (SourceStop <$> l)
  /\ nextObject (fold_left (fun c s => call (SourceStop s) c) l c)
     = nextObject c.
Proof.
  revert c. induction l as [|s l IH]; intros c; simpl.
  - by rewrite app_nil_r.
  - destruct (IH (call (SourceStop s) c)) as [-> ->]. simpl.
    by rewrite <- app_assoc.
Qed.

(** An interruption stops the sources of the set in turn, empties the set
    and puts the cursor at 0. *)
Lemma interrupt_spec (c : Component) :
  calls (interrupt c) = calls c ++ (SourceStop <$> sourcesRef c)
  /\ sourcesRef (interrupt c) = []
  /\ nextStartTimeRef (interrupt c) = 0%Q
  /\ nextObject (interrupt c) = nextObject c.
Proof.
  unfold interrupt. simpl.
  destruct (interrupt_calls_from (sourcesRef c) c) as [-> ->]. done.
Qed.

(** The effect of scheduling one buffer. *)
Lemma schedule_spec now b c :
  calls (schedule now b c)
  = calls c ++ [SourceStart (nextObject c)
                  (Math_max (nextStartTimeRef c) now) (duration b)]
  /\ nextStartTimeRef (schedule now b c)
     = (Math_max (nextStartTimeRef c) now + duration b)%Q
  /\ sourcesRef (schedule now b c) = set_add (nextObject c) (sourcesRef c)
  /\ nextObject (schedule now b c) = S (nextObject c).
Proof. done. Qed.

(** C1.  Every chunk that the scheduler handles starts at the larger of the
    cursor and the device time, never before the device time, and moves the
    cursor to that start plus the buffer's duration.  So when three chunks
    arrive in turn, each before the device time has passed the cursor
    (faster than real time), the second starts where the first ends and the
    third where the second ends. *)
Theorem gapless_playback (c : Component) (t1 t2 t3 : Q)
    (m1 m2 m3 : Message) (b1 b2 b3 : AudioBuffer) :
  delivers m1 b1 -> delivers m2 b2 -> delivers m3 b3 ->
  let c1 := step c (Incoming t1 m1) in
  let c2 := step c1 (Incoming t2 m2) in
  let c3 := step c2 (Incoming t3 m3) in
  let s1 := Math_max (nextStartTimeRef c) t1 in
  let s2 := Math_max (nextStartTimeRef c1) t2 in
  let s3 := Math_max (nextStartTimeRef c2) t3 in
  (calls c1 = calls c ++ [SourceStart (nextObject c) s1 (duration b1)]
   /\ nextStartTimeRef c1 = (s1 + duration b1)%Q /\ (t1 <= s1)%Q)
  /\ (calls c2 = calls c1 ++ [SourceStart (nextObject c1) s2 (duration b2)]
      /\ nextStartTimeRef c2 = (s2 + duration b2)%Q /\ (t2 <= s2)%Q)
  /\ (calls c3 = calls c2 ++ [SourceStart (nextObject c2) s3 (duration b3)]
      /\ nextStartTimeRef c3 = (s3 + duration b3)%Q /\ (t3 <= s3)%Q)
  /\ ((t2 <= nextStartTimeRef c1)%Q -> (t3 <= nextStartTimeRef c2)%Q ->
      s2 = (s1 + duration b1)%Q /\ s3 = (s2 + duration b2)%Q).
Proof.
  intros H1 H2 H3. cbn zeta. unfold step.
  rewrite (onmessage_delivers t1 m1 b1 c H1). cbn [snd].
  rewrite (onmessage_delivers t2 m2 b2 _ H2). cbn [snd].
  rewrite (onmessage_delivers t3 m3 b3 _ H3). cbn [snd].
  set (c1 := schedule t1 b1 c). set (c2 := schedule t2 b2 c1).
  destruct (schedule_spec t1 b1 c) as (Hc1 & Hn1 & _).
  destruct (schedule_spec t2 b2 c1) as (Hc2 & Hn2 & _).
  destruct (schedule_spec t3 b3 c2) as (Hc3 & Hn3 & _).
  fold c1 in Hc1, Hn1. fold c2 in Hc2, Hn2.
  split; [|split; [|split]].
  - split; [exact Hc1|]. split; [exact Hn1|apply Math_max_ge_r].
  - split; [exact Hc2|]. split; [exact Hn2|apply Math_max_ge_r].
  - split; [exact Hc3|]. split; [exact Hn3|apply Math_max_ge_r].
  - intros Ha Hb. rewrite (Math_max_left _ _ Hb).
    rewrite (Math_max_left _ _ Ha) in Hn2 |- *.
    split; [exact Hn1|exact Hn2].
Qed.

(** A chunk of four zero bytes, as the server sends it. *)
Lemma silence_delivers :
  delivers (audio_message (js "AAAAAA==") false)
    {| numberOfChannels := 1; frames := 2; sampleRate := 24000;
       channels := [[0 # 32768; 0 # 32768]] |}.
Proof.
  split; [|reflexivity].
  exists (js "AAAAAA=="). split; [split; [reflexivity|discriminate]|].
  reflexivity.
Qed.

Lemma gapless_playback_witness :
  let m := audio_message (js "AAAAAA==") false in
  let b := {| numberOfChannels := 1; frames := 2; sampleRate := 24000;
              channels := [[0 # 32768; 0 # 32768]] |} in
  delivers m b
  /\ Math_max (nextStartTimeRef (step initial (Incoming 5 m))) 5
     = (Math_max 0 5 + duration b)%Q.
Proof.
  intros m b.
  split; [exact silence_delivers|].
  apply (gapless_playback initial 5 5 5 m m m b b b
           silence_delivers silence_delivers silence_delivers);
    apply Qle_bool_imp_le; reflexivity.
Defined.

(** C2.  Whatever the set of scheduled sources, a handled interruption
    signal returns, stops every source of the set, leaves the set empty and
    the cursor at 0; the next chunk then starts at [Math.max(0, now)]. *)
Theorem interruption_clears (c : Component) (now : Q) (m : Message) :
  signals_interruption m ->
  let c' := snd (onmessage now m c) in
  fst (onmessage now m c) = Returned
  /\ Forall (fun s => SourceStop s ∈ calls c') (sourcesRef c)
  /\ sourcesRef c' = []
  /\ nextStartTimeRef c' = 0%Q
  /\ forall now2 m2 b,
       delivers m2 b ->
       calls (step c' (Incoming now2 m2))
       = calls c' ++ [SourceStart (nextObject c') (Math_max 0 now2) (duration b)].
Proof.
  intros [Hi Hm]. cbn zeta.
  assert (Hc : exists c0,
             onmessage now m c = (Returned, interrupt c0)
             /\ Forall (fun s => s ∈ sourcesRef c0) (sourcesRef c)).
  { destruct Hm as [Hs|[b Hb]].
    - exists c. rewrite (onmessage_silent _ _ _ Hs), Hi. split; [done|].
      by apply Forall_forall.
    - exists (schedule now b c).
      rewrite (onmessage_plays _ _ b _ Hb), Hi. split; [done|].
      apply Forall_forall. intros s Hs. simpl. unfold set_add.
      case_decide; [done|]. apply elem_of_app. by left. }
  destruct Hc as (c0 & -> & Hsub). cbn [fst snd].
  destruct (interrupt_spec c0) as (Hcalls & Hsrc & Hnext & Hobj).
  repeat split; try done.
  - eapply Forall_impl; [exact Hsub|]. intros s Hs. cbn beta in *.
    rewrite Hcalls. apply elem_of_app. right.
    by apply list_elem_of_fmap_2.
  - intros now2 m2 b Hd. unfold step.
    rewrite (onmessage_delivers _ _ _ _ Hd). cbn [snd].
    rewrite (proj1 (schedule_spec _ _ _)). by rewrite Hnext.
Qed.

Lemma interruption_clears_witness :
  let m := audio_message (js "AAAAAA==") false in
  let c := run [Incoming 5 m; Incoming 5 m] initial in
  signals_interruption interruption_message
  /\ sourcesRef c = [0; 1]%nat
  /\ sourcesRef (snd (onmessage 6 interruption_message c)) = []
  /\ nextStartTimeRef (snd (onmessage 6 interruption_message c)) = 0%Q.
Proof.
  intros m c.
  assert (H : signals_interruption interruption_message).
  { split; [reflexivity|]. left. by exists None. }
  split; [exact H|]. split; [reflexivity|].
  destruct (interruption_clears c 6 interruption_message H)
    as (_ & _ & Hs & Hn & _).
  exact (conj Hs Hn).
Defined.

(** * Events *)

(** The calls that one event adds: none gives a device back, and a source
    is only started by a message, at or after the device time its handler
    read. *)
Lemma step_new_calls (c : Component) (e : Event) :
  exists new,
    calls (step c e) = calls c ++ new
    /\ Forall (fun k =>
                 is_device_release k = false
                 /\ forall src t d,
                      k = SourceStart src t d ->
                      exists now, device_time e = Some now /\ (now <= t)%Q)
         new.
Proof.
  assert (Hstops : forall l : list nat,
             Forall (fun k =>
                       is_device_release k = false
                       /\ forall src t d,
                            k = SourceStart src t d ->
                            exists now, device_time e = Some now
                                        /\ (now <= t)%Q)
               (SourceStop <$> l)).
  { intros l. apply Forall_fmap, Forall_forall. intros s _. by split. }
  destruct e as [mic conn| | |now m| | |src|input]; simpl.
  - destruct mic, conn; simpl; rewrite <- ?app_assoc;
      (eexists; split; [reflexivity|]); by repeat constructor.
  - unfold stopSession. destruct (sessionRef c) as [s|]; simpl.
    + exists [SessionClose s]. by repeat constructor.
    + exists []. by rewrite app_nil_r.
  - exists [CaptureConnect]. by repeat constructor.
  - destruct (fst (onmessage now m c)) eqn:E.
    + destruct (onmessage_returned _ _ _ E) as [Hs|[b Hb]].
      * rewrite (onmessage_silent _ _ _ Hs). simpl.
        destruct (interrupted_of m).
        -- eexists. split; [apply interrupt_spec|apply Hstops].
        -- exists []. by rewrite app_nil_r.
      * rewrite (onmessage_plays _ _ _ _ Hb). simpl.
        assert (Hstart :
                 is_device_release
                   (SourceStart (nextObject c)
                      (Math_max (nextStartTimeRef c) now) (duration b))
                 = false
                 /\ forall src t d,
                      SourceStart (nextObject c)
                        (Math_max (nextStartTimeRef c) now) (duration b)
                      = SourceStart src t d ->
                      exists now0, Some now = Some now0 /\ (now0 <= t)%Q).
        { split; [done|]. intros src t d [= _ <- _]. exists now.
          split; [done|]. apply Math_max_ge_r. }
        destruct (interrupted_of m).
        -- exists ([SourceStart (nextObject c)
                      (Math_max (nextStartTimeRef c) now) (duration b)]
                   ++ (SourceStop <$> sourcesRef (schedule now b c))).
           split.
           ++ rewrite (proj1 (interrupt_spec _)).
              rewrite (proj1 (schedule_spec _ _ _)).
              by rewrite <- app_assoc.
           ++ apply Forall_app. split; [|apply Hstops].
              constructor; [exact Hstart|constructor].
        -- eexists. split; [apply schedule_spec|].
           constructor; [exact Hstart|constructor].
    + rewrite (onmessage_rejected _ _ _ _ E). exists [].
      by rewrite app_nil_r.
  - exists [ConsoleError]. by repeat constructor.
  - exists []. by rewrite app_nil_r.
  - exists []. by rewrite app_nil_r.
  - unfold onaudioprocess. destruct (encode _) as [text|].
    + eexists. split; [done|]. by repeat constructor.
    + exists []. by rewrite app_nil_r.
Qed.

(** C3, as the code has it.  At each event of every sequence, the cursor
    does not decrease unless the event is a handled interruption, which
    puts it at 0 (not at the device time); and a source started by the event
    starts at or after the device time. *)
Theorem cursor_monotone (c : Component) (e : Event) :
  (interrupts c e -> nextStartTimeRef (step c e) = 0%Q)
  /\ (~ interrupts c e ->
      (nextStartTimeRef c <= nextStartTimeRef (step c e))%Q)
  /\ exists new,
       calls (step c e) = calls c ++ new
       /\ forall src t d,
            SourceStart src t d ∈ new ->
            exists now, device_time e = Some now /\ (now <= t)%Q.
Proof.
  split; [|split].
  - destruct e as [| | |now m| | | |]; try done. simpl. intros [Hi Hr].
    destruct (onmessage_returned _ _ _ Hr) as [Hs|[b Hb]].
    + rewrite (onmessage_silent _ _ _ Hs), Hi. apply interrupt_spec.
    + rewrite (onmessage_plays _ _ _ _ Hb), Hi. apply interrupt_spec.
  - destruct e as [mic conn| | |now m| | |src|input]; simpl; intros Hn;
      try apply Qle_refl.
    + destruct mic, conn; apply Qle_refl.
    + unfold stopSession. destruct (sessionRef c); apply Qle_refl.
    + destruct (fst (onmessage now m c)) eqn:E.
      * assert (Hi : interrupted_of m = false).
        { destruct (interrupted_of m); [|done]. by destruct Hn. }
        destruct (onmessage_returned _ _ _ E) as [Hs|[b Hb]].
        -- rewrite (onmessage_silent _ _ _ Hs), Hi. apply Qle_refl.
        -- rewrite (onmessage_plays _ _ _ _ Hb), Hi. cbn [snd].
           rewrite (proj1 (proj2 (schedule_spec _ _ _))).
           destruct Hb as (a & _ & Hb). apply inbound_duration in Hb.
           apply Qle_trans with (Math_max (nextStartTimeRef c) now).
           ++ apply Math_max_ge_l.
           ++ rewrite <- (Qplus_0_r (Math_max _ _)) at 1.
              by apply Qplus_le_r.
      * rewrite (onmessage_rejected _ _ _ _ E). apply Qle_refl.
    + unfold onaudioprocess. destruct (encode _); apply Qle_refl.
  - destruct (step_new_calls c e) as (new & Hcalls & Hnew).
    exists new. split; [done|]. intros src t d Hin.
    rewrite Forall_forall in Hnew. by apply (proj2 (Hnew _ Hin) src t d).
Qed.

(** C3, as stated, fails: after a chunk at device time 5 the cursor is past
    5; an interruption handled at device time 5 puts it at 0, which is below
    the cursor and is not the device time. *)
Lemma cursor_reset_counterexample :
  let c := step initial (Incoming 5 (audio_message (js "AAAAAA==") false)) in
  let c' := step c (Incoming 5 interruption_message) in
  interrupts c (Incoming 5 interruption_message)
  /\ (5 < nextStartTimeRef c)%Q
  /\ nextStartTimeRef c' = 0%Q
  /\ ~ (nextStartTimeRef c' == 5)%Q.
Proof. repeat split; done. Qed.

(** * Malformed chunks *)

(** A buffer of odd length has no [Int16Array] view, whatever the channel
    count. *)
Lemma decodeAudioData_odd data rate numChannels :
  (length data mod 2 <> 0)%nat ->
  decodeAudioData data rate numChannels = Throw RangeError.
Proof.
  intros H. unfold decodeAudioData, Int16Array_of_buffer.
  by destruct (Nat.eqb_spec (length data mod 2) 0).
Qed.

(** C6.  A chunk whose byte length is not a multiple of 2 * channelCount
    (the handler decodes with one channel) fails to decode, with the
    RangeError of the runtime; the handler ends there, the component and so
    the set of sources are as before, and the events that follow are
    handled as if the chunk had not come. *)
Theorem malformed_chunk_dropped (c : Component) (now : Q) (m : Message)
    (audioData : jsstring) (bytes : list byte) :
  carries m audioData ->
  decode audioData = Ok bytes ->
  (length bytes mod (2 * inboundChannels) <> 0)%nat ->
  inbound_buffer audioData = Throw RangeError
  /\ onmessage now m c = (Rejected RangeError, c)
  /\ sourcesRef (step c (Incoming now m)) = sourcesRef c
  /\ forall es, run (Incoming now m :: es) c = run es c.
Proof.
  intros [Ha Hne] Hd Hodd.
  assert (Hb : inbound_buffer audioData = Throw RangeError).
  { unfold inbound_buffer. rewrite Hd. simpl.
    by apply decodeAudioData_odd. }
  assert (Hm : onmessage now m c = (Rejected RangeError, c)).
  { unfold onmessage. by rewrite Ha, truthy_carried, Hb. }
  repeat split; try done.
  - simpl. by rewrite Hm.
  - intros es. simpl. by rewrite Hm.
Qed.

Lemma malformed_chunk_dropped_witness :
  let m := audio_message (js "AAAA") true in
  let c := step initial (Incoming 5 (audio_message (js "AAAAAA==") false)) in
  carries m (js "AAAA")
  /\ decode (js "AAAA") = Ok [x00; x00; x00]
  /\ onmessage 6 m c = (Rejected RangeError, c).
Proof.
  intros m c.
  assert (Hc : carries m (js "AAAA")) by (split; [reflexivity|discriminate]).
  assert (Hd : decode (js "AAAA") = Ok [x00; x00; x00]) by reflexivity.
  split; [exact Hc|]. split; [exact Hd|].
  apply (malformed_chunk_dropped c 6 m (js "AAAA") [x00; x00; x00] Hc Hd).
  discriminate.
Defined.

(** * Session controller *)

Lemma count_app (p : Call -> bool) (c c' : Component) (new : list Call) :
  calls c' = calls c ++ new ->
  count p c' = (count p c + length (List.filter p new))%nat.
Proof.
  intros H. unfold count. by rewrite H, List.filter_app, length_app.
Qed.

(** No event gives a device back. *)
Lemma step_no_device_release (c : Component) (e : Event) :
  count is_device_release (step c e) = count is_device_release c.
Proof.
  destruct (step_new_calls c e) as (new & Hcalls & Hnew).
  rewrite (count_app _ _ _ _ Hcalls).
  replace (List.filter is_device_release new) with (@nil Call);
    [simpl; lia|].
  symmetry. clear Hcalls. induction Hnew as [|k new [Hk _] _ IH]; [done|].
  simpl. by rewrite Hk.
Qed.

Lemma run_no_device_release (es : list Event) (c : Component) :
  count is_device_release (run es c) = count is_device_release c.
Proof.
  revert c. induction es as [|e es IH]; intros c; [done|].
  simpl. unfold run in IH. by rewrite IH, step_no_device_release.
Qed.

Lemma stopSession_spec (c : Component) :
  status (stopSession c) = "Idle"%string
  /\ isActive (stopSession c) = false
  /\ sessionRef (stopSession c) = sessionRef c
  /\ calls (stopSession c)
     = calls c ++ match sessionRef c with
                  | Some session => [SessionClose session]
                  | None => []
                  end.
Proof.
  unfold stopSession. destruct (sessionRef c) as [s|] eqn:E; simpl.
  - by rewrite E.
  - by rewrite E, app_nil_r.
Qed.

(** C7, as the code has it.  Stopping twice, in any state (also after an
    error), completes and leaves the component idle; each of the two calls
    closes the connection of the held session again; and no sequence of
    events ever gives the microphone or an audio context back. *)
Theorem stop_twice (c : Component) :
  let c2 := stopSession (stopSession c) in
  (status c2 = "Idle"%string /\ isActive c2 = false
   /\ sessionRef c2 = sessionRef c)
  /\ calls c2
     = calls c ++ match sessionRef c with
                  | Some session => [SessionClose session; SessionClose session]
                  | None => []
                  end
  /\ forall es, count is_device_release (run es c) = count is_device_release c.
Proof.
  cbn zeta.
  destruct (stopSession_spec (stopSession c)) as (Hst & Hact & Hses & Hcalls).
  destruct (stopSession_spec c) as (_ & _ & Hses1 & Hcalls1).
  split; [|split].
  - by rewrite Hst, Hact, Hses, Hses1.
  - rewrite Hcalls, Hcalls1, Hses1, <- app_assoc.
    by destruct (sessionRef c).
  - intros es. apply run_no_device_release.
Qed.

(** C7, as stated, fails: after a started session, two stops close its
    connection twice, and the devices taken (two audio contexts and the
    microphone) are given back not once but never. *)
Lemma stop_twice_counterexample :
  let c := run [Start MicGranted Connected; Open; Stop; Stop] initial in
  sessionRef c = Some 2%nat
  /\ count (is_close_of 2) c = 2%nat
  /\ count is_acquire c = 4%nat
  /\ count is_device_release c = 0%nat
  /\ count is_device_release c <> 1%nat.
Proof. repeat split; done. Qed.

(** C8, as the code has it.  An error event, in any state, logs the error
    and sets the status label to Error; everything else is left as it is: the
    session stays active and held, no resource is given back, and the next
    close event puts the label back to Idle. *)
Theorem error_event (c : Component) :
  let c' := onerror c in
  status c' = "Error"%string
  /\ calls c' = calls c ++ [ConsoleError]
  /\ isActive c' = isActive c
  /\ sessionRef c' = sessionRef c
  /\ audioContextRef c' = audioContextRef c
  /\ nextStartTimeRef c' = nextStartTimeRef c
  /\ sourcesRef c' = sourcesRef c
  /\ count is_release c' = count is_release c
  /\ status (onclose c') = "Idle"%string.
Proof.
  cbn zeta. repeat split; try done.
  rewrite (count_app _ c _ [ConsoleError]); [simpl; lia|done].
Qed.

(** C8, as stated, fails: an error in a listening session leaves the
    session active and held, with four resources taken and none given back. *)
Lemma error_event_counterexample :
  let c := run [Start MicGranted Connected; Open] initial in
  let c' := step c Failure in
  status c' = "Error"%string
  /\ isActive c' = true
  /\ sessionRef c' = Some 2%nat
  /\ count is_acquire c' = 4%nat
  /\ count is_release c' = 0%nat.
Proof. repeat split; done. Qed.

(** C9, as the code has it.  When the microphone is denied, the start
    fails: the label becomes Permission Denied, no connection is asked for,
    no session is held and the component does not become active; the two
    audio contexts were created before the microphone was asked for, and
    the output one stays in [audioContextRef]. *)
Theorem permission_denied (c : Component) (conn : ConnOutcome) :
  let c' := startSession MicDenied conn c in
  status c' = "Permission Denied"%string
  /\ isActive c' = isActive c
  /\ sessionRef c' = sessionRef c
  /\ calls c'
     = calls c ++ [NewAudioContext (nextObject c) 16000;
                   NewAudioContext (S (nextObject c)) 24000;
                   GetUserMedia MicDenied;
                   ConsoleError]
  /\ audioContextRef c' = Some (S (nextObject c)).
Proof.
  cbn zeta. repeat split; try done.
  simpl. by rewrite <- !app_assoc.
Qed.

(** C9, as stated, fails: on a denied microphone two audio contexts have
    been taken by the time the failure shows. *)
Lemma permission_denied_counterexample :
  let c' := startSession MicDenied Connected initial in
  status c' = "Permission Denied"%string
  /\ calls c' = [NewAudioContext 0 16000; NewAudioContext 1 24000;
                 GetUserMedia MicDenied; ConsoleError]
  /\ count is_acquire c' = 2%nat
  /\ count is_release c' = 0%nat
  /\ audioContextRef c' = Some 1%nat.
Proof. repeat split; done. Qed.

(** * Further properties of the codec *)

Lemma encode_bytes_length (bs : list N) :
  length (Base64.encode_bytes bs) = (4 * ((length bs + 2) / 3))%nat.
Proof.
  unfold Base64.encode_bytes. rewrite length_app, length_fmap.
  induction bs as [|a|a b|a b c l IH] using Base64Facts.list_ind3;
    try done.
  assert (Hp : Base64.padding (a :: b :: c :: l) = Base64.padding l).
  { unfold Base64.padding. cbn [length].
    by replace (S (S (S (length l)))) with (length l + 1 * 3)%nat
      by lia; rewrite Nat.Div0.mod_add. }
  rewrite Hp. cbn [Base64.sextets length].
  replace (S (S (S (length l))) + 2)%nat with (1 * 3 + (length l + 2))%nat
    by lia.
  rewrite Nat.div_add_l by lia. lia.
Qed.

Lemma char_of_alphabet (v : N) :
  (v < 64)%N -> Base64.char_of v ∈ Base64.alphabet.
Proof.
  intros Hv. unfold Base64.char_of.
  destruct (Base64.alphabet !! N.to_nat v) as [x|] eqn:E.
  - simpl. by eapply list_elem_of_lookup_2.
  - apply lookup_ge_None in E.
    change (length Base64.alphabet) with 64%nat in E. lia.
Qed.

(** X1.  [encode] never throws: for every byte array it returns a text of
    4 * ceil(n / 3) characters, each from the base64 alphabet or the
    padding sign. *)
Theorem encode_total (bytes : list byte) :
  exists text,
    encode bytes = Ok text
    /\ length text = (4 * ((length bytes + 2) / 3))%nat
    /\ Forall (fun ch => ch ∈ Base64.alphabet \/ ch = Base64.pad) text.
Proof.
  eexists. split; [apply encode_eq|]. split.
  - by rewrite encode_bytes_length, length_fmap.
  - unfold Base64.encode_bytes. apply Forall_app. split.
    + apply Forall_fmap.
      eapply Forall_impl;
        [exact (Base64Facts.sextets_bound _ (byte_codes_bounded bytes))|].
      intros v Hv. left. by apply char_of_alphabet.
    + unfold Base64.padding.
      destruct (length (Byte.to_N <$> bytes) mod 3)%nat as [|[|[|n]]];
        repeat constructor; by right.
Qed.

Lemma index_of_bound (c : N) (l : list N) (i : N) :
  Base64.index_of c l = Some i -> (i < N.of_nat (length l))%N.
Proof.
  revert i. induction l as [|x l IH]; intros i; simpl; [done|].
  destruct (x =? c)%N.
  - intros [= <-]. lia.
  - destruct (Base64.index_of c l) as [j|]; [|done]. simpl.
    intros [= <-]. specialize (IH j eq_refl). lia.
Qed.

Lemma values_bound (data vs : list N) :
  mapM Base64.value_of data = Some vs -> Forall (fun v => (v < 64)%N) vs.
Proof.
  intros H. apply mapM_Some_1 in H.
  induction H as [|c v data vs Hv _ IH]; constructor; [|done].
  apply index_of_bound in Hv.
  by change (length Base64.alphabet) with 64%nat in Hv.
Qed.

(** The decoder keeps its buffer within its size and puts out bytes. *)
Lemma feed_invariant (vs : list N) (out : list N) (buf nbits : N) :
  Forall (fun v => (v < 64)%N) vs ->
  Forall (fun b => (b < 256)%N) out ->
  (nbits = 0 \/ nbits = 6 \/ nbits = 12 \/ nbits = 18)%N ->
  (buf < 2 ^ nbits)%N ->
  Forall (fun b => (b < 256)%N)
    (Base64.flush (fold_left Base64.feed vs (out, buf, nbits))).
Proof.
  intros Hvs. revert out buf nbits.
  induction Hvs as [|v vs Hv _ IH]; intros out buf nbits Hout Hn Hbuf.
  - simpl. destruct Hn as [-> | [-> | [-> | ->]]]; simpl; try done.
    + apply Forall_app. split; [done|]. repeat constructor.
      change (2 ^ 12)%N with 4096%N in Hbuf. divlia.
    + apply Forall_app. split; [done|].
      change (2 ^ 18)%N with 262144%N in Hbuf.
      repeat constructor; divlia.
  - cbn [fold_left].
    destruct Hn as [-> | [-> | [-> | ->]]].
    + rewrite Base64Facts.feed_0. apply IH; [done|tauto|].
      change (2 ^ 0)%N with 1%N in Hbuf. change (2 ^ 6)%N with 64%N. lia.
    + rewrite Base64Facts.feed_6. apply IH; [done|tauto|].
      change (2 ^ 6)%N with 64%N in Hbuf. change (2 ^ 12)%N with 4096%N.
      lia.
    + rewrite Base64Facts.feed_12. apply IH; [done|tauto|].
      change (2 ^ 12)%N with 4096%N in Hbuf.
      change (2 ^ 18)%N with 262144%N. lia.
    + rewrite Base64Facts.feed_18. apply IH; [|tauto|done].
      change (2 ^ 18)%N with 262144%N in Hbuf.
      apply Forall_app. split; [done|]. repeat constructor; divlia.
Qed.

Lemma atob_codes (text s : list N) :
  Base64.atob text = Ok s -> Forall (fun code => (code < 256)%N) s.
Proof.
  unfold Base64.atob.
  destruct (_ =? 1)%nat; [done|].
  destruct (mapM _ _) as [vs|] eqn:E; [|done].
  intros [= <-]. unfold Base64.decode_values.
  apply feed_invariant; [by eapply values_bound|done|by left|done].
Qed.

Lemma atob_error (text : list N) (e : JsError) :
  Base64.atob text = Throw e -> e = InvalidCharacterError.
Proof.
  unfold Base64.atob.
  destruct (_ =? 1)%nat; [by intros [= <-]|].
  destruct (mapM _ _); [done|by intros [= <-]].
Qed.

(** X2.  [decode] throws exactly when [atob] does, and then an
    InvalidCharacterError; otherwise it returns one byte per character of
    the binary string, and the byte is the character's code, which is
    below 256. *)
Theorem decode_of_atob (text : jsstring) :
  match Base64.atob text with
  | Ok binaryString =>
      exists bytes,
        decode text = Ok bytes
        /\ Byte.to_N <$> bytes = binaryString
  | Throw e => e = InvalidCharacterError /\ decode text = Throw e
  end.
Proof.
  unfold decode. destruct (Base64.atob text) as [s|e] eqn:E.
  - exists (ToUint8 <$> s). simpl. rewrite decode_bytes. split; [done|].
    rewrite <- list_fmap_compose.
    rewrite <- (list_fmap_id s) at 2.
    apply Forall_fmap_ext_1.
    eapply Forall_impl; [exact (atob_codes _ _ E)|].
    intros c Hc. simpl. rewrite to_N_ToUint8. by apply N.mod_small.
  - split; [by eapply atob_error|done].
Qed.

Lemma int16_of_le_range (lo hi : byte) :
  -32768 <= int16_of_le lo hi <= 32767.
Proof.
  unfold int16_of_le.
  pose proof (Byte.to_N_bounded lo). pose proof (Byte.to_N_bounded hi).
  destruct (Z.ltb_spec
              (Z.of_N (Byte.to_N lo) + 256 * Z.of_N (Byte.to_N hi)) 32768);
    lia.
Qed.

Lemma int16_elements_range (buffer : list byte) :
  Forall (fun v => -32768 <= v <= 32767) (int16_elements buffer).
Proof.
  induction buffer as [|a|a b l IH] using list_ind2; try constructor.
  - apply int16_of_le_range.
  - exact IH.
Qed.

Lemma sample_unit_range (v : Z) :
  -32768 <= v <= 32767 ->
  (-1 <= inject_Z v / 32768)%Q /\ (inject_Z v / 32768 < 1)%Q.
Proof.
  intros Hv. unfold Qle, Qlt, Qdiv, Qmult, Qinv, inject_Z. simpl. lia.
Qed.

(** X3.  For one channel, data of an even, positive length and a rate that
    every audio context supports, [decodeAudioData] gives one frame per two
    bytes: frame [i] is the signed
    16-bit integer of bytes [2i] (low) and [2i+1] (high), divided by 32768,
    so every sample lies in [-1, 1). *)
Theorem decodeAudioData_samples (data : list byte) (rate : Q) :
  (length data mod 2 = 0)%nat ->
  (0 < length data)%nat ->
  Z.of_nat (length data / 2) < 2 ^ 32 ->
  (8000 <= rate <= 96000)%Q ->
  exists b,
    decodeAudioData data rate 1 = Ok b
    /\ frames b = (length data / 2)%nat
    /\ sampleRate b = rate
    /\ channels b
       = [(fun v => (inject_Z v / 32768)%Q) <$> int16_elements data]
    /\ Forall (Forall (fun s => (-1 <= s)%Q /\ (s < 1)%Q)) (channels b).
Proof.
  intros Heven Hpos Hsmall Hrange.
  assert (Hrate : (0 < rate)%Q).
  { apply Qlt_le_trans with 8000%Q; [reflexivity|apply Hrange]. }
  eexists.
  split; [by apply decodeAudioData_mono|]. cbn [frames sampleRate channels].
  repeat split; try done.
  constructor; [|constructor]. apply Forall_fmap.
  eapply Forall_impl; [apply int16_elements_range|].
  intros v Hv. by apply sample_unit_range.
Qed.

Lemma decodeAudioData_samples_witness :
  exists b,
    decodeAudioData [x00; x80; xff; x7f; x00; x40] 24000 1 = Ok b
    /\ frames b = 3%nat
    /\ channels b = [[-32768 # 32768; 32767 # 32768; 16384 # 32768]].
Proof.
  destruct (decodeAudioData_samples [x00; x80; xff; x7f; x00; x40] 24000)
    as (b & Hb & Hf & _ & Hc & _);
    [reflexivity|simpl; lia|simpl; lia|split; by vm_compute|].
  exists b. split; [exact Hb|]. split; [exact Hf|exact Hc].
Defined.

(** X4.  What [onmessage] gets from a chunk that [atob] accepts: an odd
    number of bytes is refused with a RangeError, no bytes at all with a
    NotSupportedError, and an even, positive number gives a buffer at 24 kHz
    with one frame per two bytes, so of duration (bytes / 2) / 24000
    seconds. *)
Theorem inbound_buffer_cases (audioData : jsstring) (bytes : list byte) :
  decode audioData = Ok bytes ->
  Z.of_nat (length bytes / 2) < 2 ^ 32 ->
  ((length bytes mod 2 <> 0)%nat ->
   inbound_buffer audioData = Throw RangeError)
  /\ (bytes = [] -> inbound_buffer audioData = Throw NotSupportedError)
  /\ ((length bytes mod 2 = 0)%nat -> bytes <> [] ->
      exists b,
        inbound_buffer audioData = Ok b
        /\ frames b = (length bytes / 2)%nat
        /\ sampleRate b = 24000%Q
        /\ (duration b == inject_Z (Z.of_nat (length bytes / 2)) / 24000)%Q).
Proof.
  intros Hd Hsmall. unfold inbound_buffer. rewrite Hd. simpl mbind.
  split; [|split].
  - apply decodeAudioData_odd.
  - by intros ->.
  - intros Heven Hne. eexists. unfold inboundChannels.
    rewrite (decodeAudioData_mono bytes inboundRate Heven);
      [|by destruct bytes; simpl; try lia|done|done].
    repeat split; try done.
Qed.

Lemma inbound_buffer_cases_witness :
  decode (js "AAAAAA==") = Ok [x00; x00; x00; x00]
  /\ exists b, inbound_buffer (js "AAAAAA==") = Ok b /\ frames b = 2%nat.
Proof.
  assert (Hd : decode (js "AAAAAA==") = Ok [x00; x00; x00; x00])
    by reflexivity.
  split; [exact Hd|].
  destruct (inbound_buffer_cases _ _ Hd) as (_ & _ & H); [simpl; lia|].
  destruct H as (b & Hb & Hf & _); [reflexivity|discriminate|].
  exists b. by split.
Defined.

Lemma int16_le_of_le (lo hi : byte) : int16_le (int16_of_le lo hi) = [lo; hi].
Proof.
  unfold int16_le, int16_of_le, byte_of_Z.
  pose proof (Byte.to_N_bounded lo). pose proof (Byte.to_N_bounded hi).
  set (l := Byte.to_N lo) in *. set (h := Byte.to_N hi) in *.
  assert (Hl : forall z, z mod 256 = Z.of_N l -> ToUint8 (Z.to_N (z mod 256)) = lo).
  { intros z ->. rewrite N2Z.id. apply ToUint8_to_N. }
  assert (Hh : forall z, z mod 256 = Z.of_N h -> ToUint8 (Z.to_N (z mod 256)) = hi).
  { intros z ->. rewrite N2Z.id. apply ToUint8_to_N. }
  destruct (Z.ltb_spec (Z.of_N l + 256 * Z.of_N h) 32768).
  - f_equal; [apply Hl; divlia|]. f_equal. apply Hh. divlia.
  - f_equal; [apply Hl; divlia|]. f_equal. apply Hh. divlia.
Qed.

(** The bytes under an [Int16Array] view are the bytes viewed. *)
Lemma int16_view_bytes (data : list byte) :
  (length data mod 2 = 0)%nat ->
  concat (int16_le <$> int16_elements data) = data.
Proof.
  induction data as [|a|a b l IH] using list_ind2; intros H; try done.
  cbn [int16_elements]. rewrite fmap_cons. cbn [concat].
  rewrite int16_le_of_le, IH; [done|].
  cbn [length] in H.
  replace (S (S (length l))) with (length l + 1 * 2)%nat in H by lia.
  by rewrite Nat.Div0.mod_add in H.
Qed.

Lemma Qtrunc_rescaled (v : Z) : Qtrunc (inject_Z v / 32768 * 32768) = v.
Proof.
  unfold Qtrunc, Qdiv, Qmult, Qinv, inject_Z. simpl.
  rewrite Z.mul_1_r. change (Z.pos (1 * 32768 * 1)) with 32768.
  apply Z.quot_mul. lia.
Qed.

(** X5.  PCM bytes survive the two codecs: when [decodeAudioData] turns
    data of an even, positive length into samples of one channel, the
    outbound encoder turns these samples back into the same bytes. *)
Theorem pcm_bytes_round_trip (data : list byte) (rate : Q) :
  (length data mod 2 = 0)%nat ->
  (0 < length data)%nat ->
  Z.of_nat (length data / 2) < 2 ^ 32 ->
  (8000 <= rate <= 96000)%Q ->
  exists b samples,
    decodeAudioData data rate 1 = Ok b
    /\ channels b = [samples]
    /\ encodeOutbound samples = data.
Proof.
  intros Heven Hpos Hsmall Hrange.
  assert (Hrate : (0 < rate)%Q).
  { apply Qlt_le_trans with 8000%Q; [reflexivity|apply Hrange]. }
  eexists. eexists.
  split; [by apply decodeAudioData_mono|]. split; [reflexivity|].
  rewrite encodeOutbound_eq, <- list_fmap_compose.
  rewrite <- (int16_view_bytes data Heven) at 2. f_equal.
  apply list_fmap_ext. intros _ v _. simpl.
  by rewrite Qtrunc_ToInt16_bytes, Qtrunc_rescaled.
Qed.

Lemma pcm_bytes_round_trip_witness :
  exists b samples,
    decodeAudioData [x00; x80; xff; x7f; x34; x12] 24000 1 = Ok b
    /\ channels b = [samples]
    /\ encodeOutbound samples = [x00; x80; xff; x7f; x34; x12].
Proof.
  apply (pcm_bytes_round_trip [x00; x80; xff; x7f; x34; x12] 24000);
    [reflexivity|simpl; lia|simpl; lia|split; by vm_compute].
Defined.

(** Scaling, truncating and scaling back moves a number by less than
    1/32768. *)
Lemma quantization_error (s : Q) :
  (Qabs (inject_Z (Qtrunc (s * 32768)) / 32768 - s) < 1 / 32768)%Q.
Proof.
  apply Qabs_Qlt_condition. destruct s as [n d].
  unfold Qtrunc, Qlt, Qplus, Qminus, Qopp, Qdiv, Qmult, Qinv, inject_Z.
  cbn [Qnum Qden]. rewrite Pos.mul_1_r.
  pose proof (Z.quot_rem' (n * 32768) (Z.pos d)) as Hq.
  pose proof (Z.rem_bound_abs (n * 32768) (Z.pos d) ltac:(lia)) as Hr.
  set (q := (n * 32768) ÷ Z.pos d) in *.
  set (r := Z.rem (n * 32768) (Z.pos d)) in *.
  simpl. rewrite !Pos2Z.inj_mul. split; nia.
Qed.

(** X6.  Samples survive the two codecs up to quantization: a non-empty
    frame of samples in [-1, 1), encoded by the outbound encoder and decoded
    by [decodeAudioData] with one channel, gives as many samples; each is
    the original scaled by 32768, truncated and divided by 32768, less
    than 1/32768 away from the original. *)
Theorem pcm_samples_round_trip (samples : list Q) (rate : Q) :
  samples <> [] ->
  Z.of_nat (length samples) < 2 ^ 32 ->
  (8000 <= rate <= 96000)%Q ->
  Forall (fun s => (-1 <= s)%Q /\ (s < 1)%Q) samples ->
  exists b,
    decodeAudioData (encodeOutbound samples) rate 1 = Ok b
    /\ frames b = length samples
    /\ channels b
       = [(fun s => (inject_Z (Qtrunc (s * 32768)) / 32768)%Q) <$> samples]
    /\ Forall (fun s =>
                 (Qabs (inject_Z (Qtrunc (s * 32768)) / 32768 - s)
                  < 1 / 32768)%Q) samples.
Proof.
  intros Hne Hsmall Hrange Hs.
  assert (Hrate : (0 < rate)%Q).
  { apply Qlt_le_trans with 8000%Q; [reflexivity|apply Hrange]. }
  assert (Hlen : length (encodeOutbound samples) = (2 * length samples)%nat).
  { rewrite encodeOutbound_eq. by apply length_packed. }
  assert (Hhalf : (length (encodeOutbound samples) / 2 = length samples)%nat).
  { rewrite Hlen, Nat.mul_comm. by apply Nat.div_mul. }
  assert (Hints : int16_elements (encodeOutbound samples)
                  = (fun s => Qtrunc (s * 32768)) <$> samples).
  { rewrite encodeOutbound_eq.
    rewrite (list_fmap_compose (fun s => ToInt16 (s * 32768)) int16_le).
    rewrite int16_elements_packed.
    - apply Forall_fmap_ext_1. eapply Forall_impl; [exact Hs|].
      intros s [Hlo Hhi]. simpl. apply ToInt16_small. by apply scaled_below.
    - apply Forall_fmap, Forall_forall. intros s _. apply ToInt16_range. }
  eexists. split.
  { apply decodeAudioData_mono; try done.
    - rewrite Hlen, Nat.mul_comm. apply Nat.Div0.mod_mul.
    - rewrite Hlen. destruct samples; [done|simpl; lia].
    - by rewrite Hhalf. }
  cbn [frames channels]. split; [done|]. split.
  - by rewrite Hints, <- list_fmap_compose.
  - apply Forall_forall. intros s _. apply quantization_error.
Qed.

Lemma pcm_samples_round_trip_witness :
  exists b,
    decodeAudioData (encodeOutbound [1 # 3; -1; 0]%Q) 24000 1 = Ok b
    /\ channels b = [[10922 # 32768; -32768 # 32768; 0 # 32768]].
Proof.
  destruct (pcm_samples_round_trip [1 # 3; -1; 0]%Q 24000)
    as (b & Hb & _ & Hc & _);
    [discriminate|simpl; lia|split; by vm_compute| |].
  - repeat constructor; unfold Qle, Qlt; simpl; lia.
  - exists b. split; [exact Hb|exact Hc].
Defined.

(** * Further properties of the scheduler *)

(** The three ways in which [onmessage] ends. *)
Lemma onmessage_cases (now : Q) (m : Message) (c : Component) :
  (exists e, onmessage now m c = (Rejected e, c))
  \/ (silent m
      /\ onmessage now m c
         = (Returned, if interrupted_of m then interrupt c else c))
  \/ (exists b,
        plays m b
        /\ onmessage now m c
           = (Returned,
              if interrupted_of m then interrupt (schedule now b c)
              else schedule now b c)).
Proof.
  destruct (fst (onmessage now m c)) as [|e] eqn:E.
  - destruct (onmessage_returned _ _ _ E) as [Hs|[b Hb]].
    + right. left. split; [done|]. by apply onmessage_silent.
    + right. right. exists b. split; [done|]. by apply onmessage_plays.
  - left. exists e. pose proof (onmessage_rejected _ _ _ _ E) as Hc.
    destruct (onmessage now m c) as [k c']. simpl in *. by subst.
Qed.

Lemma started_call (k : Call) (c : Component) :
  started (call k c)
  = started c ++ match k with SourceStart s _ _ => [s] | _ => [] end.
Proof. unfold started. simpl. rewrite omap_app. by destruct k. Qed.

Lemma stopped_call (k : Call) (c : Component) :
  stopped (call k c)
  = stopped c ++ match k with SourceStop s => [s] | _ => [] end.
Proof. unfold stopped. simpl. rewrite omap_app. by destruct k. Qed.

Lemma started_schedule now b c :
  started (schedule now b c) = started c ++ [nextObject c].
Proof.
  unfold started. rewrite (proj1 (schedule_spec now b c)).
  by rewrite omap_app.
Qed.

Lemma stopped_schedule now b c : stopped (schedule now b c) = stopped c.
Proof.
  unfold stopped. rewrite (proj1 (schedule_spec now b c)).
  by rewrite omap_app, app_nil_r.
Qed.

Lemma started_interrupt c : started (interrupt c) = started c.
Proof.
  unfold started. rewrite (proj1 (interrupt_spec c)), omap_app.
  replace (omap _ (SourceStop <$> sourcesRef c)) with (@nil nat);
    [by rewrite app_nil_r|].
  by induction (sourcesRef c).
Qed.

Lemma stopped_interrupt c : stopped (interrupt c) = stopped c ++ sourcesRef c.
Proof.
  unfold stopped. rewrite (proj1 (interrupt_spec c)), omap_app. f_equal.
  induction (sourcesRef c) as [|s l IH]; [done|]. simpl. f_equal. apply IH.
Qed.

(** An event other than a message leaves the cursor and the record of
    starts and stops as they are; only the end of a source changes the
    set. *)
Lemma step_not_incoming (c : Component) (e : Event) :
  device_time e = None ->
  nextStartTimeRef (step c e) = nextStartTimeRef c
  /\ started (step c e) = started c
  /\ stopped (step c e) = stopped c
  /\ (nextObject c <= nextObject (step c e))%nat
  /\ sourcesRef (step c e)
     = match e with
       | Ended s => set_delete s (sourcesRef c)
       | _ => sourcesRef c
       end.
Proof.
  destruct e as [mic conn| | |now m| | |src|input]; try done; intros _.
  - destruct mic, conn; simpl; unfold started, stopped; simpl;
      rewrite <- ?app_assoc, !omap_app, !app_nil_r;
      repeat split; try done; lia.
  - unfold step, stopSession. destruct (sessionRef c); simpl;
      unfold started, stopped; simpl; rewrite ?omap_app, ?app_nil_r; done.
  - simpl. unfold started, stopped. simpl.
    by rewrite !omap_app, !app_nil_r.
  - simpl. unfold started, stopped. simpl.
    by rewrite !omap_app, !app_nil_r.
  - unfold step, onaudioprocess. destruct (encode _); [|done].
    unfold started, stopped. simpl. by rewrite !omap_app, !app_nil_r.
Qed.

Lemma consistent_schedule now b c :
  sources_consistent c -> sources_consistent (schedule now b c).
Proof.
  intros (Hst & Hsp & Hsub & Hnd & Hset & Hfresh).
  rewrite Forall_forall in Hsub, Hset, Hfresh.
  assert (Hn : nextObject c ∉ started c).
  { intros H. specialize (Hfresh _ H). lia. }
  assert (Hns : nextObject c ∉ sourcesRef c).
  { intros H. by destruct (Hset _ H). }
  unfold sources_consistent.
  rewrite started_schedule, stopped_schedule.
  rewrite (proj1 (proj2 (proj2 (schedule_spec now b c)))).
  rewrite (proj2 (proj2 (proj2 (schedule_spec now b c)))).
  unfold set_add. rewrite decide_False by done.
  repeat split.
  - apply NoDup_app. split; [done|]. split; [|apply NoDup_singleton].
    intros x Hx ->%list_elem_of_singleton. done.
  - done.
  - apply Forall_forall. intros s Hs. apply elem_of_app. left. by apply Hsub.
  - apply NoDup_app. split; [done|]. split; [|apply NoDup_singleton].
    intros x Hx ->%list_elem_of_singleton. done.
  - apply Forall_forall. intros s [Hs|Hs%list_elem_of_singleton]%elem_of_app.
    + destruct (Hset _ Hs). split; [|done]. apply elem_of_app. by left.
    + subst s. split; [apply elem_of_app; right; by left|].
      intros H. by apply Hn, Hsub.
  - apply Forall_forall. intros s [Hs|Hs%list_elem_of_singleton]%elem_of_app.
    + specialize (Hfresh _ Hs). lia.
    + subst s. lia.
Qed.

Lemma consistent_interrupt c :
  sources_consistent c -> sources_consistent (interrupt c).
Proof.
  intros (Hst & Hsp & Hsub & Hnd & Hset & Hfresh).
  rewrite Forall_forall in Hsub, Hset.
  unfold sources_consistent.
  rewrite started_interrupt, stopped_interrupt.
  destruct (interrupt_spec c) as (_ & -> & _ & ->).
  repeat split; try done.
  - apply NoDup_app. split; [done|]. split; [|done].
    intros x Hx Hx'. by destruct (Hset _ Hx').
  - apply Forall_forall. intros s [Hs|Hs]%elem_of_app.
    + by apply Hsub.
    + by destruct (Hset _ Hs).
  - apply NoDup_nil_2.
Qed.

Lemma consistent_step (c : Component) (e : Event) :
  sources_consistent c -> sources_consistent (step c e).
Proof.
  intros Hc. destruct (device_time e) as [now|] eqn:Hd.
  - destruct e as [| | |now' m| | | |]; try done. simpl.
    destruct (onmessage_cases now' m c) as [[x ->]|[[_ ->]|(b & _ & ->)]];
      simpl; [done| |].
    + destruct (interrupted_of m); [by apply consistent_interrupt|done].
    + destruct (interrupted_of m);
        [apply consistent_interrupt|]; by apply consistent_schedule.
  - destruct (step_not_incoming c e Hd) as (_ & Hst & Hsp & Hobj & Hsrc).
    destruct Hc as (H1 & H2 & H3 & H4 & H5 & H6).
    unfold sources_consistent. rewrite Hst, Hsp, Hsrc.
    repeat split; try done.
    + destruct e; try done. by apply NoDup_filter.
    + destruct e; try done. unfold set_delete.
      rewrite Forall_forall in H5. apply Forall_forall.
      intros s [_ Hs]%list_elem_of_filter. by apply H5.
    + eapply Forall_impl; [exact H6|]. intros s Hs. simpl in Hs. lia.
Qed.

Lemma consistent_run (es : list Event) (c : Component) :
  sources_consistent c -> sources_consistent (run es c).
Proof.
  revert c. induction es as [|e es IH]; intros c Hc; [done|].
  simpl. apply IH. by apply consistent_step.
Qed.

Lemma consistent_initial : sources_consistent initial.
Proof.
  unfold sources_consistent, initial, started, stopped. simpl.
  repeat split; try apply NoDup_nil_2; by constructor.
Qed.

(** X7.  Whatever events come, the bookkeeping of sources stays sound: no
    source is started twice, none is stopped twice, a source is only
    stopped after it was started, and the set holds distinct sources that
    were started and not stopped. *)
Theorem sources_stay_consistent (es : list Event) :
  sources_consistent (run es initial).
Proof. apply consistent_run, consistent_initial. Qed.

(** X8.  When a source ends naturally the set forgets it: after a chunk is
    scheduled and its source has ended the set is as it was before the
    chunk; the end of a source that is not in the set changes nothing. *)
Theorem ended_forgets (es : list Event) (now : Q) (m : Message)
    (b : AudioBuffer) :
  delivers m b ->
  let c := run es initial in
  sourcesRef (step c (Incoming now m)) = sourcesRef c ++ [nextObject c]
  /\ sourcesRef (run [Incoming now m; Ended (nextObject c)] c) = sourcesRef c
  /\ forall s, s ∉ sourcesRef c -> sourcesRef (step c (Ended s)) = sourcesRef c.
Proof.
  intros Hd c.
  destruct (consistent_run es initial consistent_initial)
    as (_ & _ & _ & _ & Hset & Hfresh).
  fold c in Hset, Hfresh. rewrite Forall_forall in Hset, Hfresh.
  assert (Hn : nextObject c ∉ sourcesRef c).
  { intros H. destruct (Hset _ H) as [H' _]. specialize (Hfresh _ H'). lia. }
  assert (Hkeep : forall s, s ∉ sourcesRef c ->
                            set_delete s (sourcesRef c) = sourcesRef c).
  { intros s Hs. apply Base64Facts.filter_all, Forall_forall.
    intros x Hx ->. done. }
  assert (Hadd : sourcesRef (step c (Incoming now m))
                 = sourcesRef c ++ [nextObject c]).
  { simpl. rewrite (onmessage_delivers _ _ _ _ Hd). cbn [snd].
    rewrite (proj1 (proj2 (proj2 (schedule_spec now b c)))).
    unfold set_add. by rewrite decide_False. }
  split; [done|]. split; [|intros s Hs; simpl; by apply Hkeep].
  change (run [Incoming now m; Ended (nextObject c)] c)
    with (step (step c (Incoming now m)) (Ended (nextObject c))).
  cbn [step]. unfold onended. cbn [sourcesRef setSources].
  fold (step c (Incoming now m)). rewrite Hadd.
  unfold set_delete. rewrite filter_app, filter_cons_False by (by intros []).
  rewrite filter_nil, app_nil_r. by apply Hkeep.
Qed.

Lemma ended_forgets_witness :
  let m := audio_message (js "AAAAAA==") false in
  let c := run [Incoming 5 m] initial in
  delivers m {| numberOfChannels := 1; frames := 2; sampleRate := 24000;
                channels := [[0 # 32768; 0 # 32768]] |}
  /\ sourcesRef c = [0%nat]
  /\ sourcesRef (run [Incoming 6 m; Ended (nextObject c)] c) = [0%nat].
Proof.
  intros m c. split; [exact silence_delivers|]. split; [reflexivity|].
  exact (proj1 (proj2 (ended_forgets [Incoming 5 m] 6 m _ silence_delivers))).
Defined.

(** The calls of a run extend the calls made before it. *)
Lemma calls_grow (es : list Event) (c : Component) :
  calls (run es c) = calls c ++ new_calls es c.
Proof.
  unfold new_calls.
  enough (exists new, calls (run es c) = calls c ++ new) as [new ->]
    by by rewrite drop_app_length.
  revert c. induction es as [|e es IH]; intros c.
  - exists []. by rewrite app_nil_r.
  - simpl. destruct (IH (step c e)) as [new ->].
    destruct (step_new_calls c e) as (new' & -> & _).
    exists (new' ++ new). by rewrite app_assoc.
Qed.

Lemma new_calls_cons (e : Event) (es : list Event) (c : Component) :
  new_calls (e :: es) c = new_calls [e] c ++ new_calls es (step c e).
Proof.
  apply (app_inv_head (calls c)).
  rewrite <- calls_grow, app_assoc. simpl.
  change (step c e) with (run [e] c) at 2.
  by rewrite <- calls_grow, <- calls_grow.
Qed.

(** A step that is no interruption keeps the cursor from falling; a source
    it starts begins at or after the old cursor and ends at the new one. *)
Lemma quiet_step (c : Component) (e : Event) :
  ~ interrupts c e ->
  (nextStartTimeRef c <= nextStartTimeRef (step c e))%Q
  /\ forall s t d,
       SourceStart s t d ∈ new_calls [e] c ->
       (nextStartTimeRef c <= t)%Q
       /\ (t + d <= nextStartTimeRef (step c e))%Q.
Proof.
  intros Hq. destruct (device_time e) as [now|] eqn:Hd.
  - destruct e as [| | |now' m| | | |]; try done.
    unfold new_calls. simpl in *.
    destruct (onmessage_cases now' m c) as [[x E]|[[_ E]|(b & Hb & E)]];
      rewrite E in *; cbn [fst snd] in *.
    + split; [apply Qle_refl|]. intros s t d.
      rewrite drop_all. by intros ?%elem_of_nil.
    + destruct (interrupted_of m); [by destruct Hq|].
      split; [apply Qle_refl|]. intros s t d.
      rewrite drop_all. by intros ?%elem_of_nil.
    + destruct (interrupted_of m); [by destruct Hq|].
      destruct (schedule_spec now' b c) as (-> & -> & _).
      destruct Hb as (a & _ & Hb). apply inbound_duration in Hb.
      assert (Hup : (nextStartTimeRef c
                     <= Math_max (nextStartTimeRef c) now' + duration b)%Q).
      { apply Qle_trans with (Math_max (nextStartTimeRef c) now').
        - apply Math_max_ge_l.
        - rewrite <- (Qplus_0_r (Math_max _ _)) at 1. by apply Qplus_le_r. }
      split; [done|]. intros s t d. rewrite drop_app_length.
      intros [= _ -> ->]%list_elem_of_singleton.
      split; [apply Math_max_ge_l|apply Qle_refl].
  - destruct (step_not_incoming c e Hd) as (-> & Hst & _).
    split; [apply Qle_refl|]. intros s t d Hin. exfalso.
    change (step c e) with (run [e] c) in Hst.
    unfold started in Hst. rewrite calls_grow, omap_app in Hst.
    assert (Hnil : omap (fun k => match k with
                                  | SourceStart s _ _ => Some s
                                  | _ => None
                                  end) (new_calls [e] c) = []).
    { apply (app_inv_head (omap (fun k => match k with
                                          | SourceStart s _ _ => Some s
                                          | _ => None
                                          end) (calls c))).
      by rewrite app_nil_r. }
    assert (Hs : s ∈ omap (fun k => match k with
                                    | SourceStart s _ _ => Some s
                                    | _ => None
                                    end) (new_calls [e] c)).
    { apply list_elem_of_omap. by exists (SourceStart s t d). }
    rewrite Hnil in Hs. by apply elem_of_nil in Hs.
Qed.

(** Over a run without interruption, every source started begins at or
    after the cursor the run began with and ends at or before the cursor
    it ends with. *)
Lemma quiet_window (es : list Event) (c : Component) :
  quiet es c ->
  (nextStartTimeRef c <= nextStartTimeRef (run es c))%Q
  /\ forall s t d,
       SourceStart s t d ∈ new_calls es c ->
       (nextStartTimeRef c <= t)%Q
       /\ (t + d <= nextStartTimeRef (run es c))%Q.
Proof.
  revert c. induction es as [|e es IH]; intros c Hq.
  - split; [apply Qle_refl|]. intros s t d. unfold new_calls. simpl.
    rewrite drop_all. by intros ?%elem_of_nil.
  - destruct Hq as [Hq Hqs].
    destruct (quiet_step c e Hq) as [Hc He].
    destruct (IH _ Hqs) as [Hcs Hes]. simpl.
    split; [by eapply Qle_trans|]. intros s t d.
    rewrite new_calls_cons. intros [Hin|Hin]%elem_of_app.
    + destruct (He _ _ _ Hin). split; [done|]. by eapply Qle_trans.
    + destruct (Hes _ _ _ Hin). split; [|done]. by eapply Qle_trans.
Qed.

Lemma quiet_app (es1 es2 : list Event) (c : Component) :
  quiet (es1 ++ es2) c -> quiet es1 c /\ quiet es2 (run es1 c).
Proof.
  revert c. induction es1 as [|e es1 IH]; intros c; simpl; [done|].
  intros [Hq Hqs]. destruct (IH _ Hqs). done.
Qed.

(** X9.  Without an interruption in between, playback never overlaps: a
    source started earlier in a sequence of events ends at or before the
    start of every source started later in it, whatever the device times
    and whatever other events come in between. *)
Theorem no_overlap (c : Component) (es1 es2 : list Event)
    (s1 s2 : nat) (t1 d1 t2 d2 : Q) :
  quiet (es1 ++ es2) c ->
  SourceStart s1 t1 d1 ∈ new_calls es1 c ->
  SourceStart s2 t2 d2 ∈ new_calls es2 (run es1 c) ->
  (t1 + d1 <= t2)%Q.
Proof.
  intros [Hq1 Hq2]%quiet_app H1 H2.
  destruct (quiet_window _ _ Hq1) as [_ Hw1].
  destruct (quiet_window _ _ Hq2) as [_ Hw2].
  destruct (Hw1 _ _ _ H1) as [_ Hend].
  destruct (Hw2 _ _ _ H2) as [Hbegin _].
  by eapply Qle_trans.
Qed.

Lemma no_overlap_witness :
  let m := audio_message (js "AAAAAA==") false in
  let es1 := [Incoming 5 m; Open] in
  let es2 := [Ended 0; Incoming 9 m] in
  quiet (es1 ++ es2) initial
  /\ new_calls es1 initial = [SourceStart 0 5 (2 # 24000); CaptureConnect]
  /\ new_calls es2 (run es1 initial) = [SourceStart 1 9 (2 # 24000)]
  /\ (5 + (2 # 24000) <= 9)%Q.
Proof.
  intros m es1 es2.
  assert (Hq : quiet (es1 ++ es2) initial).
  { simpl. repeat split; try tauto; by intros [[=] _]. }
  assert (E1 : new_calls es1 initial
               = [SourceStart 0 5 (2 # 24000); CaptureConnect])
    by (vm_compute; reflexivity).
  assert (E2 : new_calls es2 (run es1 initial)
               = [SourceStart 1 9 (2 # 24000)])
    by (vm_compute; reflexivity).
  split; [exact Hq|]. split; [exact E1|]. split; [exact E2|].
  apply (no_overlap initial es1 es2 0 1 5 (2 # 24000) 9 (2 # 24000) Hq).
  - rewrite E1. left.
  - rewrite E2. left.
Defined.

(** X10.  [onmessage] is rejected exactly when reading the message throws
    or its chunk fails to decode, with that error.  The component is then
    as before: also when the message carries the interruption flag, no
    source is stopped and the cursor is kept, and the events that follow
    are handled as if the message had not come. *)
Theorem rejected_message_ignored (now : Q) (m : Message) (c : Component)
    (e : JsError) :
  (fst (onmessage now m c) = Rejected e
   <-> audioData_of m = Throw e
       \/ exists audioData,
            carries m audioData /\ inbound_buffer audioData = Throw e)
  /\ (fst (onmessage now m c) = Rejected e ->
      onmessage now m c = (Rejected e, c)
      /\ forall es, run (Incoming now m :: es) c = run es c).
Proof.
  split.
  - unfold onmessage, carries.
    destruct (audioData_of m) as [a|x] eqn:Ha.
    + destruct (truthy a) as [d|] eqn:Ht.
      * assert (a = Some d /\ d <> []) as [-> Hne].
        { destruct a as [[|y l]|]; try done. simpl in Ht.
          by injection Ht as <-. }
        destruct (inbound_buffer d) as [b|x] eqn:Hb; simpl.
        -- split; [done|]. intros [?|(d' & [[= <-] _] & ?)]; congruence.
        -- split.
           ++ intros [= <-]. right. by exists d.
           ++ intros [?|(d' & [[= <-] _] & ?)]; congruence.
      * simpl. split; [done|]. intros [?|(d' & [[= ->] Hne] & ?)]; [done|].
        by destruct d'.
    + simpl. split.
      * intros [= <-]. by left.
      * intros [[= <-]|(d' & [? _] & _)]; done.
  - intros E. pose proof (onmessage_rejected _ _ _ _ E) as Hc.
    assert (Hm : onmessage now m c = (Rejected e, c)).
    { destruct (onmessage now m c) as [k c']. simpl in *. by subst. }
    split; [done|]. intros es. simpl. by rewrite Hm.
Qed.

(** X11.  Only a message starts or stops a source, and only a message
    moves the cursor.  Stopping or closing the session stops no scheduled
    source and keeps the set and the cursor, and a start resets neither: the
    first chunk of the next session is scheduled against the cursor that the
    last session left. *)
Theorem session_keeps_playback (c : Component) (e : Event)
    (mic : MicOutcome) (conn : ConnOutcome) (now : Q) (m : Message)
    (b : AudioBuffer) :
  device_time e = None ->
  delivers m b ->
  (nextStartTimeRef (step c e) = nextStartTimeRef c
   /\ started (step c e) = started c
   /\ stopped (step c e) = stopped c)
  /\ sourcesRef (stopSession c) = sourcesRef c
  /\ new_calls [Incoming now m] (run [Stop; Start mic conn] c)
     = [SourceStart (nextObject (run [Stop; Start mic conn] c))
          (Math_max (nextStartTimeRef c) now) (duration b)].
Proof.
  intros Hd Hm. split; [|split].
  - destruct (step_not_incoming c e Hd) as (? & ? & ? & _). done.
  - exact (proj2 (proj2 (proj2 (proj2
             (step_not_incoming c Stop eq_refl))))).
  - set (c' := run [Stop; Start mic conn] c).
    assert (Hcur : nextStartTimeRef c' = nextStartTimeRef c).
    { subst c'.
      change (run [Stop; Start mic conn] c)
        with (step (step c Stop) (Start mic conn)).
      rewrite (proj1 (step_not_incoming (step c Stop) (Start mic conn)
                        eq_refl)).
      exact (proj1 (step_not_incoming c Stop eq_refl)). }
    unfold new_calls. simpl. rewrite (onmessage_delivers _ _ _ _ Hm).
    cbn [snd]. rewrite (proj1 (schedule_spec now b c')).
    by rewrite drop_app_length, Hcur.
Qed.

Lemma session_keeps_playback_witness :
  let m := audio_message (js "AAAAAA==") false in
  let c := run [Start MicGranted Connected; Incoming 30 m] initial in
  delivers m {| numberOfChannels := 1; frames := 2; sampleRate := 24000;
                channels := [[0 # 32768; 0 # 32768]] |}
  /\ new_calls [Incoming 0 m] (run [Stop; Start MicGranted Connected] c)
     = [SourceStart 7 (Math_max (nextStartTimeRef c) 0) (2 # 24000)]
  /\ (30 < Math_max (nextStartTimeRef c) 0)%Q.
Proof.
  intros m c. split; [exact silence_delivers|]. split; [|reflexivity].
  exact (proj2 (proj2 (session_keeps_playback c Stop MicGranted Connected
                         0 m _ eq_refl silence_delivers))).
Defined.

Lemma count_run_step (p : Call -> bool) (es : list Event) (c : Component)
    (f : Event -> nat) :
  (forall c e, count p (step c e) = (count p c + f e)%nat) ->
  count p (run es c) = (count p c + sum_list (f <$> es))%nat.
Proof.
  intros Hstep. revert c. induction es as [|e es IH]; intros c.
  - simpl. lia.
  - change (run (e :: es) c) with (run es (step c e)).
    rewrite IH, Hstep, fmap_cons. simpl. lia.
Qed.

(** X12.  Every start creates two audio contexts, whether it succeeds or
    fails, and no other event creates one: after any sequence of events the
    number of contexts created has grown by twice the number of starts. *)
Theorem contexts_per_start (es : list Event) (c : Component) :
  count is_new_context (run es c)
  = (count is_new_context c + 2 * length (List.filter is_start es))%nat.
Proof.
  rewrite (count_run_step _ _ _ (fun e => if is_start e then 2 else 0)%nat).
  - f_equal. induction es as [|e es IH]; [done|].
    rewrite fmap_cons. simpl. destruct (is_start e); simpl; lia.
  - clear. intros c e.
    destruct e as [mic conn| | |now m| | |src|input]; simpl.
    + destruct mic, conn; unfold count; simpl;
        rewrite <- ?app_assoc, List.filter_app, length_app; simpl; lia.
    + unfold stopSession, count. destruct (sessionRef c); simpl;
        rewrite ?List.filter_app, ?length_app; simpl; lia.
    + unfold count. simpl. rewrite List.filter_app, length_app. simpl. lia.
    + destruct (onmessage_cases now m c) as [[x ->]|[[_ ->]|(b & _ & ->)]];
        cbn [snd]; unfold count.
      * lia.
      * destruct (interrupted_of m); [|lia].
        rewrite (proj1 (interrupt_spec c)), List.filter_app, length_app.
        replace (List.filter is_new_context (SourceStop <$> sourcesRef c))
          with (@nil Call); [simpl; lia|].
        by induction (sourcesRef c).
      * assert (Hs : length (List.filter is_new_context
                               (calls (schedule now b c)))
                     = length (List.filter is_new_context (calls c))).
        { rewrite (proj1 (schedule_spec now b c)), List.filter_app,
            length_app. simpl. lia. }
        destruct (interrupted_of m); [|lia].
        rewrite (proj1 (interrupt_spec _)), List.filter_app, length_app, Hs.
        replace (List.filter is_new_context
                   (SourceStop <$> sourcesRef (schedule now b c)))
          with (@nil Call); [simpl; lia|].
        by induction (sourcesRef (schedule now b c)).
    + unfold count. simpl. rewrite List.filter_app, length_app. simpl. lia.
    + unfold count. simpl. lia.
    + unfold count. simpl. lia.
    + unfold onaudioprocess, count. destruct (encode _); simpl;
        rewrite ?List.filter_app, ?length_app; simpl; lia.
Qed.

(** * Further properties of the session controller *)

Lemma stops_frame (l : list nat) (c : Component) :
  isActive (fold_left (fun c s => call (SourceStop s) c) l c) = isActive c
  /\ sessionRef (fold_left (fun c s => call (SourceStop s) c) l c)
     = sessionRef c.
Proof.
  revert c. induction l as [|s l IH]; intros c; [done|]. simpl.
  destruct (IH (call (SourceStop s) c)) as [-> ->]. done.
Qed.

(** A kind of call that is neither the start nor the stop of a source is
    not counted in what [onmessage] does; the handler touches neither the
    state hooks nor the session. *)
Lemma onmessage_frame (p : Call -> bool) (now : Q) (m : Message)
    (c : Component) :
  (forall s t d, p (SourceStart s t d) = false) ->
  (forall s, p (SourceStop s) = false) ->
  let c' := snd (onmessage now m c) in
  count p c' = count p c
  /\ isActive c' = isActive c
  /\ sessionRef c' = sessionRef c
  /\ (nextObject c <= nextObject c')%nat.
Proof.
  intros Hstart Hstop. cbn zeta.
  assert (Hi : forall c0, count p (interrupt c0) = count p c0
                          /\ isActive (interrupt c0) = isActive c0
                          /\ sessionRef (interrupt c0) = sessionRef c0
                          /\ nextObject (interrupt c0) = nextObject c0).
  { intros c0. destruct (interrupt_spec c0) as (Hc & _ & _ & Ho).
    split; [|split; [|split; [|done]]].
    - rewrite (count_app p c0 _ _ Hc).
      replace (List.filter p (SourceStop <$> sourcesRef c0)) with (@nil Call);
        [simpl; lia|].
      clear Hc. induction (sourcesRef c0) as [|s l IH]; [done|].
      rewrite fmap_cons. cbn [List.filter]. by rewrite Hstop.
    - unfold interrupt. simpl. apply (stops_frame _ c0).
    - unfold interrupt. simpl. apply (stops_frame _ c0). }
  assert (Hs : forall b, count p (schedule now b c) = count p c).
  { intros b. rewrite (count_app p c _ _ (proj1 (schedule_spec now b c))).
    simpl. rewrite Hstart. simpl. lia. }
  destruct (onmessage_cases now m c) as [[x ->]|[[_ ->]|(b & _ & ->)]];
    cbn [snd].
  - repeat split; try done.
  - destruct (interrupted_of m); [|done].
    destruct (Hi c) as (-> & -> & -> & ->). done.
  - destruct (interrupted_of m).
    + destruct (Hi (schedule now b c)) as (-> & -> & -> & ->).
      rewrite Hs. repeat split; try done. simpl. lia.
    + rewrite Hs. repeat split; try done. simpl. lia.
Qed.

(** A step that closes nothing, activates nothing and keeps the session
    keeps what the button relies on. *)
Lemma ui_frame (c c' : Component) :
  (forall s, count (is_close_of s) c' = count (is_close_of s) c) ->
  (isActive c' = true -> isActive c = true) ->
  sessionRef c' = sessionRef c ->
  (nextObject c <= nextObject c')%nat ->
  (forall s, (count (is_close_of s) c <= 1)%nat)
  /\ (forall s, (nextObject c <= s)%nat -> count (is_close_of s) c = 0%nat)
  /\ (forall s, sessionRef c = Some s -> (s < nextObject c)%nat)
  /\ (isActive c = true ->
      exists s, sessionRef c = Some s /\ count (is_close_of s) c = 0%nat) ->
  (forall s, (count (is_close_of s) c' <= 1)%nat)
  /\ (forall s, (nextObject c' <= s)%nat -> count (is_close_of s) c' = 0%nat)
  /\ (forall s, sessionRef c' = Some s -> (s < nextObject c')%nat)
  /\ (isActive c' = true ->
      exists s, sessionRef c' = Some s /\ count (is_close_of s) c' = 0%nat).
Proof.
  intros Hcount Ha Hs Ho (Hle & Hfresh & Hheld & Hact).
  repeat split.
  - intros s. by rewrite Hcount.
  - intros s Hs'. rewrite Hcount. apply Hfresh. lia.
  - intros s. rewrite Hs. intros Hs'. specialize (Hheld _ Hs'). lia.
  - intros Ha'. destruct (Hact (Ha Ha')) as (s & Es & Hz). exists s.
    by rewrite Hs, Hcount.
Qed.

(** What the button and the callbacks keep. *)
Lemma ui_invariant (c : Component) :
  ui_reachable c ->
  (forall s, (count (is_close_of s) c <= 1)%nat)
  /\ (forall s, (nextObject c <= s)%nat -> count (is_close_of s) c = 0%nat)
  /\ (forall s, sessionRef c = Some s -> (s < nextObject c)%nat)
  /\ (isActive c = true ->
      exists s, sessionRef c = Some s /\ count (is_close_of s) c = 0%nat).
Proof.
  induction 1 as [|c mic conn _ (Hle & Hfresh & Hheld & Hact)
                   |c e _ IH Hcb].
  - repeat split; try done. intros s. unfold count. simpl. lia.
  - unfold onClick. destruct (isActive c) eqn:Ea.
    + destruct (Hact eq_refl) as (s0 & Es & Hz).
      change (step c Stop) with (stopSession c).
      destruct (stopSession_spec c) as (_ & Hoff & Hses & Hc).
      rewrite Es in Hc.
      assert (Hn : nextObject (stopSession c) = nextObject c).
      { unfold stopSession. by destruct (sessionRef c). }
      assert (Hcount : forall s,
                 count (is_close_of s) (stopSession c)
                 = (count (is_close_of s) c
                    + if (s0 =? s)%nat then 1 else 0)%nat).
      { intros s. rewrite (count_app _ c _ _ Hc). simpl.
        by destruct (s0 =? s)%nat. }
      specialize (Hheld _ Es).
      repeat split.
      * intros s. rewrite Hcount. destruct (Nat.eqb_spec s0 s) as [<-|].
        -- rewrite Hz. lia.
        -- specialize (Hle s). lia.
      * intros s Hs. rewrite Hcount. rewrite Hn in Hs.
        destruct (Nat.eqb_spec s0 s); [lia|]. rewrite Hfresh; lia.
      * intros s. rewrite Hses, Hn, Es. by intros [= <-].
      * by rewrite Hoff.
    + assert (Hcount : forall s,
                 count (is_close_of s) (step c (Start mic conn))
                 = count (is_close_of s) c).
      { intros s. simpl. destruct mic, conn; unfold count; simpl;
          rewrite <- ?app_assoc, List.filter_app, length_app; simpl; lia. }
      assert (Hobj : (nextObject c + 2
                      <= nextObject (step c (Start mic conn)))%nat).
      { simpl. destruct mic, conn; simpl; lia. }
      repeat split.
      * intros s. by rewrite Hcount.
      * intros s Hs. rewrite Hcount. apply Hfresh. lia.
      * intros s. simpl. destruct mic, conn; simpl;
          try (intros Hs; specialize (Hheld _ Hs); lia).
        intros [= <-]. lia.
      * simpl. destruct mic, conn; simpl; try (by rewrite Ea).
        intros _. eexists. split; [done|].
        pose proof (Hcount (S (S (nextObject c)))) as Hc. simpl in Hc.
        rewrite Hc. apply Hfresh. lia.
  - apply (ui_frame c); [| | | |done].
    + intros s. destruct e as [| | |now m| | |src|input]; try done.
      * unfold count. simpl. rewrite List.filter_app, length_app. simpl. lia.
      * by apply onmessage_frame.
      * unfold count. simpl. rewrite List.filter_app, length_app. simpl. lia.
      * simpl. unfold onaudioprocess, count.
        destruct (encode _); simpl;
          rewrite ?List.filter_app, ?length_app; simpl; lia.
    + destruct e as [| | |now m| | |src|input]; try done.
      * cbn [step].
        by destruct (onmessage_frame (is_close_of 0) now m c) as (_ & -> & _).
      * simpl. unfold onaudioprocess. by destruct (encode _).
    + destruct e as [| | |now m| | |src|input]; try done.
      * cbn [step].
        by destruct (onmessage_frame (is_close_of 0) now m c)
          as (_ & _ & -> & _).
      * simpl. unfold onaudioprocess. by destruct (encode _).
    + destruct e as [| | |now m| | |src|input]; try done.
      * cbn [step].
        by destruct (onmessage_frame (is_close_of 0) now m c)
          as (_ & _ & _ & ?).
      * simpl. unfold onaudioprocess. by destruct (encode _).
Qed.

(** X13.  Driven by its button and by the callbacks, the component closes
    no session twice, and while it is active it holds a session that has not
    been closed: the button offers the stop only while the component is
    active, and a stop leaves it inactive. *)
Theorem button_closes_once (c : Component) :
  ui_reachable c ->
  (forall s, (count (is_close_of s) c <= 1)%nat)
  /\ (isActive c = true ->
      exists s, sessionRef c = Some s /\ count (is_close_of s) c = 0%nat).
Proof.
  intros H. destruct (ui_invariant c H) as (H1 & _ & _ & H4). done.
Qed.

Lemma button_closes_once_witness :
  let c1 := step initial (onClick MicGranted Connected initial) in
  let c2 := step c1 Open in
  let c3 := step c2 (onClick MicGranted Connected c2) in
  let c4 := step c3 (onClick MicDenied Connected c3) in
  ui_reachable c4
  /\ calls c4
     = [NewAudioContext 0 16000; NewAudioContext 1 24000;
        GetUserMedia MicGranted; LiveConnect Connected; CaptureConnect;
        SessionClose 2;
        NewAudioContext 3 16000; NewAudioContext 4 24000;
        GetUserMedia MicDenied; ConsoleError]
  /\ (count (is_close_of 2) c4 <= 1)%nat.
Proof.
  intros c1 c2 c3 c4.
  assert (H : ui_reachable c4).
  { apply ui_click, ui_click, ui_callback; [|exact I].
    apply ui_click, ui_initial. }
  split; [exact H|]. split; [reflexivity|].
  exact (proj1 (button_closes_once c4 H) 2%nat).
Defined.

(** * De-interleaving *)

Lemma Qceiling_ratio (n c : nat) :
  (0 < c)%nat ->
  Z.of_nat n ÷ Z.of_nat c
  <= Qceiling (inject_Z (Z.of_nat n) / inject_Z (Z.of_nat c)).
Proof.
  intros Hc. destruct c as [|k]; [lia|].
  unfold Qceiling, Qfloor, Qdiv, Qmult, Qinv, Qopp, inject_Z. simpl.
  rewrite Z.mul_1_r.
  rewrite Z.quot_div_nonneg by lia.
  rewrite Pos.mul_1_l.
  change (Z.of_nat (S k)) with (Z.pos (Pos.of_succ_nat k)).
  set (a := Z.of_nat n). set (b := Z.pos (Pos.of_succ_nat k)).
  assert (Hb : b <> 0) by (subst b; lia).
  destruct (Z.eq_dec (a mod b) 0) as [Hz|Hnz].
  - rewrite (Z.div_opp_l_z a b Hb Hz). lia.
  - rewrite (Z.div_opp_l_nz a b Hb Hnz). lia.
Qed.

(** The inner loop of [decodeAudioData] for one channel. *)
Lemma fill_one_channel (d : list Z) (c ch f k : nat) :
  (ch < c)%nat ->
  (f * c <= length d)%nat ->
  (f <= k)%nat ->
  fold_left (fun cd i => store_sample d (i * c + ch) cd i) (seq 0 k)
    (replicate f 0%Q)
  = (fun i => (inject_Z (default 0%Z (d !! (i * c + ch)%nat)) / 32768)%Q)
      <$> seq 0 f.
Proof.
  intros Hch Hf Hk.
  replace k with (f + (k - f))%nat by lia.
  rewrite seq_app, fold_left_app.
  rewrite (fold_left_ext_in
             (fun cd i => store_sample d (i * c + ch) cd i)
             (fun cd i =>
                <[i := (inject_Z (default 0%Z (d !! (i * c + ch)%nat))
                        / 32768)%Q]> cd) (seq 0 f)).
  - rewrite store_loop.
    set (l := _ <$> seq 0 f).
    assert (Hl : length l = f) by (subst l; by rewrite length_fmap, length_seq).
    clearbody l.
    assert (Hge : Forall (fun i => (f <= i)%nat) (seq (0 + f) (k - f))).
    { apply Forall_forall. intros i Hi%elem_of_seq. lia. }
    induction Hge as [|i rest Hi _ IH]; [done|].
    simpl. unfold store_sample at 2.
    destruct (d !! (i * c + ch)%nat).
    + rewrite list_insert_ge by lia. exact IH.
    + exact IH.
  - intros cd i Hi%elem_of_seq. unfold store_sample.
    assert (Hlt : (i * c + ch < length d)%nat) by nia.
    by destruct (lookup_lt_is_Some_2 d _ Hlt) as [v ->].
Qed.

(** The outer loop: every channel is filled from the silent channel that
    [createBuffer] made. *)
Lemma fill_all_channels {A} (G : nat -> A -> A) (init : A) (c k : nat) :
  (k <= c)%nat ->
  fold_left
    (fun chans channel =>
       match chans !! channel with
       | Some cd => <[channel := G channel cd]> chans
       | None => chans
       end)
    (seq 0 k) (replicate c init)
  = ((fun channel => G channel init) <$> seq 0 k) ++ replicate (c - k) init.
Proof.
  induction k as [|k IH]; intros Hk.
  - simpl. by rewrite Nat.sub_0_r.
  - rewrite seq_S, fold_left_app, IH by lia. cbn [fold_left Nat.add].
    set (pre := _ <$> seq 0 k).
    assert (Hpre : length pre = k) by (subst pre; by rewrite length_fmap, length_seq).
    rewrite lookup_app_r by lia. rewrite Hpre, Nat.sub_diag.
    replace (c - k)%nat with (S (c - S k)) by lia. cbn [replicate lookup list_lookup].
    rewrite insert_app_r_alt by lia. rewrite Hpre, Nat.sub_diag.
    cbn [insert list_insert]. rewrite fmap_app. cbn [fmap list_fmap].
    subst pre. by rewrite <- app_assoc.
Qed.

(** X14.  [decodeAudioData] de-interleaves: for data of an even length
    that holds at least one whole frame of [numChannels] 16-bit integers, the
    buffer has [numChannels] channels of as many frames as fit, and frame
    [i] of channel [ch] is integer number [i * numChannels + ch] divided by
    32768.  Integers after the last whole frame are left out: nothing is
    thrown for them. *)
Theorem decodeAudioData_deinterleaves (data : list byte) (rate : Q)
    (numChannels : nat) :
  (length data mod 2 = 0)%nat ->
  (0 < numChannels <= length data / 2)%nat ->
  (numChannels <= 32)%nat ->
  Z.of_nat (length data / 2 / numChannels) < 2 ^ 32 ->
  (8000 <= rate <= 96000)%Q ->
  exists b,
    decodeAudioData data rate numChannels = Ok b
    /\ numberOfChannels b = numChannels
    /\ frames b = (length data / 2 / numChannels)%nat
    /\ length (channels b) = numChannels
    /\ forall ch i,
         (ch < numChannels)%nat -> (i < frames b)%nat ->
         exists v channelData,
           int16_elements data !! (i * numChannels + ch)%nat = Some v
           /\ channels b !! ch = Some channelData
           /\ length channelData = frames b
           /\ channelData !! i = Some (inject_Z v / 32768)%Q.
Proof.
  intros Heven [Hc Hn] Hmax Hsmall Hrange.
  assert (Hrate : (0 < rate)%Q).
  { apply Qlt_le_trans with 8000%Q; [reflexivity|apply Hrange]. }
  set (d := int16_elements data).
  assert (Hd : length d = (length data / 2)%nat)
    by apply int16_elements_length.
  set (f := (length data / 2 / numChannels)%nat) in *.
  assert (Hf : (0 < f)%nat).
  { subst f. apply Nat.div_str_pos. lia. }
  assert (Hfc : (f * numChannels <= length d)%nat).
  { rewrite Hd. subst f. rewrite Nat.mul_comm.
    apply Nat.Div0.mul_div_le. }
  assert (Hquot : Z.of_nat (length d) ÷ Z.of_nat numChannels = Z.of_nat f).
  { rewrite Z.quot_div_nonneg by lia. rewrite Hd. subst f.
    symmetry. apply Nat2Z.inj_div. }
  unfold decodeAudioData, Int16Array_of_buffer. rewrite Heven.
  simpl mbind. fold d.
  unfold createBuffer. rewrite Qtrunc_ratio by lia.
  rewrite Hquot, Z.mod_small by lia. rewrite Nat2Z.id.
  destruct (Nat.eqb_spec numChannels 0) as [|_]; [lia|].
  destruct (Nat.eqb_spec f 0) as [|_]; [lia|].
  replace (Qle_bool rate 0) with false; [|symmetry].
  2:{ apply not_true_is_false. intros H. apply Qle_bool_iff in H.
      by apply Qle_not_lt in H. }
  cbn [orb mbind result_bind numberOfChannels frames sampleRate channels].
  eexists. split; [reflexivity|]. cbn [numberOfChannels frames channels].
  unfold fill_channels.
  rewrite (fill_all_channels
             (fun channel cd =>
                fold_left
                  (fun cd i =>
                     store_sample d (i * numChannels + channel) cd i)
                  (indices_below
                     (inject_Z (Z.of_nat (length d))
                      / inject_Z (Z.of_nat numChannels))) cd)
             (replicate f 0%Q) numChannels numChannels) by lia.
  rewrite Nat.sub_diag, app_nil_r.
  split; [done|]. split; [done|].
  split; [by rewrite length_fmap, length_seq|].
  intros ch i Hch Hi.
  assert (Hlt : (i * numChannels + ch < length d)%nat) by nia.
  destruct (lookup_lt_is_Some_2 d _ Hlt) as [v Hv].
  exists v. eexists. split; [exact Hv|].
  rewrite list_lookup_fmap, lookup_seq_lt by done. cbn [fmap option_fmap option_map Nat.add].
  split; [reflexivity|]. unfold indices_below.
  rewrite (fill_one_channel d numChannels ch f) ; [|done|done|].
  - split; [by rewrite length_fmap, length_seq|].
    rewrite list_lookup_fmap, lookup_seq_lt by done. simpl. by rewrite Hv.
  - pose proof (Qceiling_ratio (length d) numChannels Hc) as Hceil.
    rewrite Hquot in Hceil. lia.
Qed.

Lemma decodeAudioData_deinterleaves_witness :
  exists b,
    decodeAudioData [x01; x00; x02; x00; x03; x00; x04; x00; x05; x00] 24000 2
    = Ok b
    /\ frames b = 2%nat
    /\ channels b = [[1 # 32768; 3 # 32768]; [2 # 32768; 4 # 32768]].
Proof.
  destruct (decodeAudioData_deinterleaves
              [x01; x00; x02; x00; x03; x00; x04; x00; x05; x00] 24000 2)
    as (b & Hb & _ & Hf & _);
    [reflexivity|simpl; lia|lia|simpl; lia|split; by vm_compute|].
  exists b. split; [exact Hb|]. split; [exact Hf|].
  by injection Hb as <-.
Defined.

(** * Capture *)



(** * Starting *)

(** X16.  A start makes the component active only when the microphone is
    granted and the connection opens; it then holds a new session, with
    two audio contexts, the microphone and the connection taken, and leaves
    the status label as it was.  Every other start ends in the catch: the
    label is Permission Denied also when it is the connection that failed,
    no session is held, and what was taken before the failure (the two
    contexts, and the microphone when it was granted) is kept.  No start
    gives anything back. *)
Theorem start_outcome (mic : MicOutcome) (conn : ConnOutcome)
    (c : Component) :
  let c' := startSession mic conn c in
  match mic, conn with
  | MicGranted, Connected =>
      isActive c' = true
      /\ sessionRef c' = Some (S (S (nextObject c)))
      /\ status c' = status c
      /\ count is_acquire c' = (count is_acquire c + 4)%nat
  | MicGranted, ConnectFailed =>
      isActive c' = isActive c
      /\ sessionRef c' = sessionRef c
      /\ status c' = "Permission Denied"%string
      /\ count is_acquire c' = (count is_acquire c + 3)%nat
  | MicDenied, _ =>
      isActive c' = isActive c
      /\ sessionRef c' = sessionRef c
      /\ status c' = "Permission Denied"%string
      /\ count is_acquire c' = (count is_acquire c + 2)%nat
  end
  /\ count is_release c' = count is_release c
  /\ nextStartTimeRef c' = nextStartTimeRef c
  /\ sourcesRef c' = sourcesRef c.
Proof.
  cbn zeta. destruct mic, conn; unfold count; simpl;
    rewrite <- ?app_assoc, !List.filter_app, !length_app; simpl;
    repeat split; lia.
Qed.

(** * Labels *)

Lemma onmessage_status (now : Q) (m : Message) (c : Component) :
  status (snd (onmessage now m c)) = status c.
Proof.
  assert (Hi : forall c0, status (interrupt c0) = status c0).
  { intros c0. unfold interrupt. simpl.
    generalize (sourcesRef c0). intros l. revert c0.
    induction l as [|s l IH]; intros c0; [done|]. simpl. by rewrite IH. }
  destruct (onmessage_cases now m c) as [[x ->]|[[_ ->]|(b & _ & ->)]];
    cbn [snd]; [done| |]; destruct (interrupted_of m); by rewrite ?Hi.
Qed.

(** X17.  From the initial state, whatever events come, the status label
    is one of Idle, Listening..., Error and Permission Denied, and whenever
    the component is active it holds a session, so that a stop has a
    connection to close. *)
Theorem labels_and_session (es : list Event) :
  let c := run es initial in
  status c ∈ ["Idle"; "Listening..."; "Error"; "Permission Denied"]%string
  /\ (isActive c = true -> is_Some (sessionRef c)).
Proof.
  cbn zeta.
  assert (H : forall c,
             status c ∈ ["Idle"; "Listening..."; "Error";
                         "Permission Denied"]%string
             /\ (isActive c = true -> is_Some (sessionRef c)) ->
             status (run es c) ∈ ["Idle"; "Listening..."; "Error";
                                  "Permission Denied"]%string
             /\ (isActive (run es c) = true -> is_Some (sessionRef (run es c)))).
  { induction es as [|e es IH]; intros c Hc; [done|].
    change (run (e :: es) c) with (run es (step c e)). apply IH.
    destruct Hc as [Hl Hs].
    assert (Hin : forall l : string,
               In l ["Idle"; "Listening..."; "Error";
                     "Permission Denied"]%string ->
               l ∈ ["Idle"; "Listening..."; "Error";
                    "Permission Denied"]%string)
      by (intros l; apply list_elem_of_In).
    destruct e as [mic conn| | |now m| | |src|input].
    - destruct mic, conn; simpl.
      + split; [done|]. by eexists.
      + split; [|done]. apply Hin. simpl. tauto.
      + split; [|done]. apply Hin. simpl. tauto.
      + split; [|done]. apply Hin. simpl. tauto.
    - destruct (stopSession_spec c) as (Hst & Hoff & _).
      cbn [step]. rewrite Hst, Hoff. split; [|done].
      apply Hin. simpl. tauto.
    - simpl. split; [|done]. apply Hin. simpl. tauto.
    - cbn [step]. rewrite onmessage_status.
      destruct (onmessage_frame (is_close_of 0) now m c)
        as (_ & -> & -> & _); done.
    - simpl. split; [|done]. apply Hin. simpl. tauto.
    - simpl. split; [|done]. apply Hin. simpl. tauto.
    - done.
    - cbn [step]. unfold onaudioprocess. by destruct (encode _). }
  apply H. split; [|done]. apply list_elem_of_In. simpl. tauto.
Qed.
